(** * Crossword generation as a constraint-satisfaction problem

    A shallow embedding of [generate.py] (class [CrosswordCreator]) and a
    verification of its consistency engine (node consistency, [revise],
    AC-3) and of its backtracking search.

    Conventions of the embedding.
    - A Python [set] is a duplicate-free list in the order in which the
      interpreter iterates over it; every statement below quantifies over
      that list, hence over every iteration order.
    - [self.domains] and [crossword.overlaps] are dictionaries that the code
      looks up by key: finite maps ([gmap]).  An absent key is a [KeyError].
    - An [assignment] is a dictionary that the code iterates over, grows and
      shrinks one entry at a time: an insertion-ordered association list.
    - Exceptions are explicit: every method returns an [outcome].
    - [random.sample] draws from a stream of naturals; the position in the
      stream is threaded through the search. *)

From stdpp Require Import gmap strings list fin_maps.
From Stdlib Require Import Ascii Lia.

Set Default Proof Using "Type".

(** ** Exceptions and outcomes *)

Inductive exn : Type := KeyError | IndexError | ValueError.

(** The outcome of running a method: a value, a raised exception, or an
    exhausted recursion budget ([NoFuel] is an artefact of the embedding;
    the totality lemmas show it is never produced by [ac3], [backtrack]
    and [solve]). *)
Inductive outcome (A : Type) : Type :=
  | Ok (a : A)
  | Raise (e : exn)
  | NoFuel.
Arguments Ok {A} a.
Arguments Raise {A} e.
Arguments NoFuel {A}.

#[global] Instance outcome_ret : MRet outcome := fun A a => Ok a.
#[global] Instance outcome_bind : MBind outcome := fun A B f m =>
  match m with
  | Ok a => f a
  | Raise e => Raise e
  | NoFuel => NoFuel
  end.

(** ** Data model *)

Inductive Direction : Type := ACROSS | DOWN.

(** Modelled from the spec: the class [Variable] of the module [crossword],
    which is imported by [generate.py] but is not part of the sources.  A
    slot is identified by (row, column, orientation, length); equality and
    hashing are structural. *)
Record Var : Type := mkVar {
  var_i : nat;
  var_j : nat;
  var_direction : Direction;
  var_length : nat
}.

#[global] Instance Direction_eq_dec : EqDecision Direction.
Proof. solve_decision. Defined.

#[global] Instance Var_eq_dec : EqDecision Var.
Proof. solve_decision. Defined.

#[global] Instance Direction_countable : Countable Direction.
Proof.
  refine (inj_countable'
            (fun d => match d with ACROSS => false | DOWN => true end)
            (fun b : bool => if b then DOWN else ACROSS) _).
  by intros [].
Defined.

#[global] Instance Var_countable : Countable Var.
Proof.
  refine (inj_countable'
            (fun v => (var_i v, var_j v, var_direction v, var_length v))
            (fun t => match t with (a, b, c, d) => mkVar a b c d end) _).
  by intros [].
Defined.

Abbreviation word := string (only parsing).
Abbreviation arc := (Var * Var)%type (only parsing).
Abbreviation overlap := (option (nat * nat)) (only parsing).

(** Modelled from the spec: the class [Crossword] of the module
    [crossword].  The solver reads the set of slots, the vocabulary and the
    overlap table: for an ordered pair of distinct slots the table holds
    either [None] (no shared cell) or the pair of zero-based letter
    positions that must agree. *)
Record Crossword : Type := mkCrossword {
  variables : list Var;
  words : list word;
  overlaps : gmap (Var * Var) overlap
}.

(** [overlaps[v, var]] read as a truth value: a pair of positions is true,
    [None] is false. *)
Definition overlapping (c : Crossword) (v var : Var) : bool :=
  match overlaps c !! (v, var) with
  | Some (Some _) => true
  | _ => false
  end.

(** Modelled from the spec: the neighbour query of [Crossword], the slots
    that overlap a given slot. *)
Definition neighbors (c : Crossword) (var : Var) : list Var :=
  filter (fun v => v ≠ var ∧ overlapping c v var = true) (variables c).

(** The solver object: [self.crossword] and [self.domains]. *)
Record CrosswordCreator : Type := mkCreator {
  crossword : Crossword;
  domains : gmap Var (list word)
}.

Definition set_domains (self : CrosswordCreator) (D : gmap Var (list word))
  : CrosswordCreator :=
  {| crossword := crossword self; domains := D |}.

(** [__init__] (generate.py, lines 10-18): every slot starts with its own
    copy of the vocabulary, so no two domains share a set object. *)
Definition init (c : Crossword) : CrosswordCreator :=
  {| crossword := c;
     domains := list_to_map ((fun var => (var, words c)) <$> variables c) |}.

(** ** Primitive operations of Python *)

(** [w[k]] for a non-negative index. *)
Definition str_index (w : word) (k : nat) : outcome ascii :=
  match String.get k w with
  | Some ch => Ok ch
  | None => Raise IndexError
  end.

(** [s.remove(w)] on a set. *)
Definition set_remove (w : word) (s : list word) : outcome (list word) :=
  if decide (w ∈ s) then Ok (filter (fun w' => w' ≠ w) s) else Raise KeyError.

(** [l.remove(x)] on a list: the first occurrence goes. *)
Fixpoint list_remove {A} `{EqDecision A} (x : A) (l : list A)
  : outcome (list A) :=
  match l with
  | [] => Raise ValueError
  | y :: l' => if decide (x = y) then Ok l'
               else l'' ← list_remove x l'; Ok (y :: l'')
  end.

(** [self.domains[variable].remove(word)]. *)
Definition domain_remove (D : gmap Var (list word)) (variable : Var) (w : word)
  : outcome (gmap Var (list word)) :=
  match D !! variable with
  | None => Raise KeyError
  | Some d => d' ← set_remove w d; Ok (<[variable := d']> D)
  end.

(** [for variable, word in removeWords: self.domains[variable].remove(word)] *)
Fixpoint remove_words (removeWords : list (Var * word))
  (D : gmap Var (list word)) : outcome (gmap Var (list word)) :=
  match removeWords with
  | [] => Ok D
  | (variable, w) :: rest => D' ← domain_remove D variable w; remove_words rest D'
  end.

(** ** Node consistency (generate.py, lines 98-113) *)

(** The pairs that the first loop appends to [removeWords] for one slot. *)
Definition wrong_length (variable : Var) (d : list word) : list (Var * word) :=
  (fun w => (variable, w)) <$>
    filter (fun w => String.length w ≠ var_length variable) d.

Definition enforce_node_consistency (self : CrosswordCreator)
  : outcome CrosswordCreator :=
  let removeWords :=
    flat_map (fun '(variable, d) => wrong_length variable d)
             (map_to_list (domains self)) in
  D' ← remove_words removeWords (domains self);
  Ok (set_domains self D').

(** ** Revise (generate.py, lines 115-145) *)

(** The inner loop of [revise]: is there a word of [y]'s domain that
    supports [wordX]?  The overlap is looked up at every iteration, as in
    the source; with no overlap every iteration is skipped and no support
    is ever found. *)
Fixpoint find_pal (c : Crossword) (x y : Var) (wordX : word)
  (dy : list word) : outcome bool :=
  match dy with
  | [] => Ok false
  | wordY :: dy' =>
      match overlaps c !! (x, y) with
      | None => Raise KeyError
      | Some None => find_pal c x y wordX dy'
      | Some (Some (px, py)) =>
          cx ← str_index wordX px;
          cy ← str_index wordY py;
          if decide (cx = cy ∧ wordX ≠ wordY) then Ok true
          else find_pal c x y wordX dy'
      end
  end.

(** The outer loop of [revise]: the list [removeWords] and the flag
    [revisionMade].  A word without support is appended to [removeWords]
    and raises the flag. *)
Fixpoint revise_scan (self : CrosswordCreator) (x y : Var) (dx : list word)
  : outcome (list (Var * word) * bool) :=
  match dx with
  | [] => Ok ([], false)
  | wordX :: dx' =>
      match domains self !! y with
      | None => Raise KeyError
      | Some dy =>
          palFound ← find_pal (crossword self) x y wordX dy;
          '(removeWords, revisionMade) ← revise_scan self x y dx';
          if palFound : bool then Ok (removeWords, revisionMade)
          else Ok ((x, wordX) :: removeWords, true)
      end
  end.

(** [revise] returns [revisionMade] and leaves the solver with the words
    of [removeWords] removed. *)
Definition revise (self : CrosswordCreator) (x y : Var)
  : outcome (bool * CrosswordCreator) :=
  match domains self !! x with
  | None => Raise KeyError
  | Some dx =>
      '(removeWords, revisionMade) ← revise_scan self x y dx;
      D' ← remove_words removeWords (domains self);
      Ok (revisionMade, set_domains self D')
  end.

(** ** AC-3 (generate.py, lines 147-180) *)

(** The default work list: every key of the overlap table whose entry is
    not [None]. *)
Definition all_arcs (c : Crossword) : list arc :=
  (filter (fun kv => kv.2 ≠ None) (map_to_list (overlaps c))).*1.

(** One iteration of the [while] loop on a non-empty queue: dequeue the
    first arc, revise it and, after a revision, append an arc
    [(neighbor, x)] for every neighbour of [x]. *)
Definition ac3_step (self : CrosswordCreator) (arcs : list arc)
  : outcome (CrosswordCreator * list arc) :=
  match arcs with
  | [] => Raise IndexError
  | a :: _ =>
      arcs' ← list_remove a arcs;
      '(revised, self') ← revise self a.1 a.2;
      if revised : bool
      then Ok (self', arcs' ++ ((fun neighbor => (neighbor, a.1)) <$>
                                  neighbors (crossword self') a.1))
      else Ok (self', arcs')
  end.

(** The [while len(arcs) > 0] loop, with a bound on its iterations. *)
Fixpoint ac3_loop (fuel : nat) (self : CrosswordCreator) (arcs : list arc)
  : outcome CrosswordCreator :=
  match arcs with
  | [] => Ok self
  | _ :: _ =>
      match fuel with
      | 0 => NoFuel
      | S fuel' =>
          '(self', arcs') ← ac3_step self arcs;
          ac3_loop fuel' self' arcs'
      end
  end.

(** The number of candidate words left, over all slots. *)
Definition total_size (D : gmap Var (list word)) : nat :=
  map_fold (fun _ d n => length d + n) 0 D.

(** A budget that the loop never exhausts (see [ac3_loop_terminates]). *)
Definition ac3_fuel (self : CrosswordCreator) (arcs : list arc) : nat :=
  length arcs + length (variables (crossword self)) * total_size (domains self).

(** The final test of [ac3]: no domain is empty. *)
Definition no_empty_domain (D : gmap Var (list word)) : bool :=
  forallb (fun kv => negb (length kv.2 =? 0)) (map_to_list D).

(** [ac3] returns whether no domain is empty. *)
Definition ac3 (self : CrosswordCreator) (arcs : option (list arc))
  : outcome (bool * CrosswordCreator) :=
  let arcs :=
    match arcs with
    | None => all_arcs (crossword self)
    | Some l => l
    end in
  self' ← ac3_loop (ac3_fuel self arcs) self arcs;
  Ok (no_empty_domain (domains self'), self').

(** ** Assignments *)

Abbreviation Assignment := (list (Var * word)) (only parsing).

(** [assignment[var] = value]: an existing entry is overwritten in place,
    a new one is appended. *)
Fixpoint dict_set (var : Var) (value : word) (a : Assignment) : Assignment :=
  match a with
  | [] => [(var, value)]
  | (k, w) :: a' =>
      if decide (k = var) then (k, value) :: a'
      else (k, w) :: dict_set var value a'
  end.

(** [assignment.pop(var)]. *)
Fixpoint dict_pop (var : Var) (a : Assignment) : outcome Assignment :=
  match a with
  | [] => Raise KeyError
  | (k, w) :: a' =>
      if decide (k = var) then Ok a'
      else a'' ← dict_pop var a'; Ok ((k, w) :: a'')
  end.

(** [assignment_complete] (generate.py, lines 182-192). *)
Definition assignment_complete (self : CrosswordCreator) (a : Assignment)
  : bool :=
  forallb (fun variable => bool_decide (variable ∈ a.*1))
          (variables (crossword self)).

(** *** The consistency check (generate.py, lines 194-228)

    Words are strings, never [None], so the tests [word is None] of the
    source never fire. *)

(** First loop: the words of two different slots differ. *)
Definition all_unique (a : Assignment) : bool :=
  forallb (fun A => forallb (fun B =>
    bool_decide (A.1 = B.1) || negb (bool_decide (A.2 = B.2))) a) a.

(** Second loop: every word has the length of its slot. *)
Definition lengths_ok (a : Assignment) : bool :=
  forallb (fun A => bool_decide (String.length A.2 = var_length A.1)) a.

(** A loop that returns [False] at the first failing element and lets an
    exception through. *)
Fixpoint all_ok {A} (f : A → outcome bool) (l : list A) : outcome bool :=
  match l with
  | [] => Ok true
  | x :: l' => b ← f x; if b : bool then all_ok f l' else Ok false
  end.

(** The body of the third loop for one ordered pair of entries. *)
Definition no_conflict (c : Crossword) (A B : Var * word) : outcome bool :=
  if decide (A.1 = B.1) then Ok true
  else match overlaps c !! (A.1, B.1) with
       | None => Raise KeyError
       | Some None => Ok true
       | Some (Some (pA, pB)) =>
           cA ← str_index A.2 pA;
           cB ← str_index B.2 pB;
           Ok (bool_decide (cA = cB))
       end.

Definition consistent (self : CrosswordCreator) (a : Assignment)
  : outcome bool :=
  if all_unique a then
    if lengths_ok a then
      all_ok (fun A => all_ok (no_conflict (crossword self) A) a) a
    else Ok false
  else Ok false.

(** *** Choosing a slot and its candidate words *)

(** [order_domain_values] (generate.py, lines 230-238): the domain in
    the order of iteration over the set. *)
Definition order_domain_values (self : CrosswordCreator) (var : Var)
  (a : Assignment) : outcome (list word) :=
  match domains self !! var with
  | None => Raise KeyError
  | Some d => Ok d
  end.

Section Search.
(** The stream of draws behind [random.sample]. *)
Variable random : nat → nat.

(** [sample(population, 1)[0]]: one draw selects an element. *)
Definition sample (population : list Var) (rng : nat) : outcome (Var * nat) :=
  match population !! (random rng mod length population) with
  | Some v => Ok (v, S rng)
  | None => Raise ValueError
  end.

(** [set(self.crossword.variables) - set(assignment.keys())]. *)
Definition unassigned (self : CrosswordCreator) (a : Assignment) : list Var :=
  filter (fun variable => variable ∉ a.*1) (variables (crossword self)).

(** [select_unassigned_variable] (generate.py, lines 240-251). *)
Definition select_unassigned_variable (self : CrosswordCreator)
  (a : Assignment) (rng : nat) : outcome (Var * nat) :=
  sample (unassigned self a) rng.

(** *** Backtracking search (generate.py, lines 253-276)

    A call returns the value it [return]s together with the contents of
    the (mutated) dictionary [assignment] and the position in the random
    stream at that moment. *)
Abbreviation search_result :=
  (option Assignment * Assignment * nat)%type (only parsing).

(** The [for value in ...] loop; [rec] is the recursive call. *)
Fixpoint try_values (rec : Assignment → nat → outcome search_result)
  (self : CrosswordCreator) (var : Var) (values : list word)
  (a : Assignment) (rng : nat) : outcome search_result :=
  match values with
  | [] => Ok (None, a, rng)
  | value :: values' =>
      let assignmentCopy := dict_set var value a in
      ok ← consistent self assignmentCopy;
      if ok : bool then
        '(result, a1, rng1) ← rec (dict_set var value a) rng;
        match result with
        | Some r => Ok (Some r, a1, rng1)
        | None => a2 ← dict_pop var a1; try_values rec self var values' a2 rng1
        end
      else try_values rec self var values' a rng
  end.

(** The body of [backtrack], with a bound on the depth of the recursion. *)
Fixpoint backtrack_fuel (fuel : nat) (self : CrosswordCreator)
  (a : Assignment) (rng : nat) : outcome search_result :=
  match fuel with
  | 0 => NoFuel
  | S fuel' =>
      if assignment_complete self a then Ok (Some a, a, rng)
      else
        '(var, rng') ← select_unassigned_variable self a rng;
        values ← order_domain_values self var a;
        try_values (backtrack_fuel fuel' self) self var values a rng'
  end.

(** [backtrack]: the recursion is as deep as there are slots left to fill
    (see [backtrack_fuel_enough]). *)
Definition backtrack (self : CrosswordCreator) (a : Assignment) (rng : nat)
  : outcome search_result :=
  backtrack_fuel (S (length (unassigned self a))) self a rng.

(** [solve] (generate.py, lines 90-96): the value returned, the solver
    object afterwards and the position in the random stream.  The value
    returned by [ac3] is dropped. *)
Definition solve (self : CrosswordCreator) (rng : nat)
  : outcome (option Assignment * CrosswordCreator * nat) :=
  self1 ← enforce_node_consistency self;
  '(_, self2) ← ac3 self1 None;
  '(result, _, rng') ← backtrack self2 [] rng;
  Ok (result, self2, rng').

(** The design the specification describes: an empty domain after AC-3
    ends the run before the search starts. *)
Definition solve_short_circuit (self : CrosswordCreator) (rng : nat)
  : outcome (option Assignment * CrosswordCreator * nat) :=
  self1 ← enforce_node_consistency self;
  '(arc_consistent, self2) ← ac3 self1 None;
  if arc_consistent : bool then
    '(result, _, rng') ← backtrack self2 [] rng;
    Ok (result, self2, rng')
  else Ok (None, self2, rng).
End Search.

(** ** Specification vocabulary *)

(** What is left of a domain once the pairs of [removeWords] are gone. *)
Definition kept (removeWords : list (Var * word)) (v : Var) (d : list word)
  : list word :=
  filter (fun w => (v, w) ∉ removeWords) d.

(** [wordY] supports [wordX] across the overlap of [x] and [y]. *)
Definition supports (c : Crossword) (x y : Var) (wordX wordY : word) : Prop :=
  ∃ px py ch, overlaps c !! (x, y) = Some (Some (px, py)) ∧
              String.get px wordX = Some ch ∧ String.get py wordY = Some ch ∧
              wordX ≠ wordY.

(** Every word of [x]'s domain has a support in [y]'s domain. *)
Definition arc_consistent (self : CrosswordCreator) (x y : Var) : Prop :=
  ∀ dx w, domains self !! x = Some dx → w ∈ dx →
    ∃ dy w', domains self !! y = Some dy ∧ w' ∈ dy ∧
             supports (crossword self) x y w w'.

(** The overlap table relates distinct slots of the puzzle. *)
Definition overlaps_on_slots (c : Crossword) : Prop :=
  ∀ x y p, overlaps c !! (x, y) = Some (Some p) → x ∈ variables c ∧ x ≠ y.

(** The loop invariant: an arc is waiting in the queue or is consistent. *)
Definition ac3_invariant (self : CrosswordCreator) (arcs : list arc) : Prop :=
  ∀ x y p, overlaps (crossword self) !! (x, y) = Some (Some p) →
           (x, y) ∈ arcs ∨ arc_consistent self x y.

(** What the specification asks of a solution. *)
Definition all_different (a : Assignment) : Prop :=
  ∀ vA wA vB wB, (vA, wA) ∈ a → (vB, wB) ∈ a → vA ≠ vB → wA ≠ wB.

Definition lengths_match (a : Assignment) : Prop :=
  ∀ v w, (v, w) ∈ a → String.length w = var_length v.

Definition overlaps_agree (c : Crossword) (a : Assignment) : Prop :=
  ∀ vA wA vB wB pA pB,
    (vA, wA) ∈ a → (vB, wB) ∈ a → vA ≠ vB →
    overlaps c !! (vA, vB) = Some (Some (pA, pB)) →
    ∃ ch, String.get pA wA = Some ch ∧ String.get pB wB = Some ch.

Definition valid (c : Crossword) (a : Assignment) : Prop :=
  all_different a ∧ lengths_match a ∧ overlaps_agree c a.

Definition complete (c : Crossword) (a : Assignment) : Prop :=
  ∀ v, v ∈ variables c → v ∈ a.*1.

(** Modelled from the spec: what the puzzle structure of the module
    [crossword] guarantees about its overlap table.  The table has an entry
    for every ordered pair of distinct slots and for nothing else, and the
    positions of an overlap lie inside the two slots. *)
Definition well_formed (c : Crossword) : bool :=
  forallb (fun kv =>
      bool_decide (kv.1.1 ∈ variables c) &&
      bool_decide (kv.1.2 ∈ variables c) &&
      negb (bool_decide (kv.1.1 = kv.1.2)) &&
      match kv.2 with
      | None => true
      | Some (p, q) => (p <? var_length kv.1.1) && (q <? var_length kv.1.2)
      end)
    (map_to_list (overlaps c))
  && forallb (fun x => forallb (fun y =>
         bool_decide (x = y) || bool_decide (is_Some (overlaps c !! (x, y))))
       (variables c)) (variables c).

(** Every slot of the puzzle has a domain. *)
Definition domains_cover (self : CrosswordCreator) : Prop :=
  ∀ v, v ∈ variables (crossword self) → is_Some (domains self !! v).

(** A satisfying assignment over the current domains: a dictionary that
    gives every slot a word of its domain and is valid. *)
Definition satisfying (self : CrosswordCreator) (s : Assignment) : Prop :=
  complete (crossword self) s ∧
  valid (crossword self) s ∧
  ∀ v w, (v, w) ∈ s → ∃ d, domains self !! v = Some d ∧ w ∈ d.

(** The assignment [a] is part of the dictionary [s]. *)
Definition part_of (self : CrosswordCreator) (s a : Assignment) : Prop :=
  ∀ p, p ∈ a → p.1 ∈ variables (crossword self) ∧ p ∈ s.

(** Every word of the dictionary [s] is in the domain of its slot. *)
Definition from_domains (self : CrosswordCreator) (s : Assignment) : bool :=
  forallb (fun p => match domains self !! p.1 with
                    | Some d => bool_decide (p.2 ∈ d)
                    | None => false
                    end) s.

(** The slot-selection policy of the specification: a slot that is not
    assigned, with the fewest candidate words among the unassigned slots
    and, among those, with the most neighbours. *)
Definition remaining (self : CrosswordCreator) (v : Var) : nat :=
  match domains self !! v with
  | Some d => length d
  | None => 0
  end.

Definition degree (self : CrosswordCreator) (v : Var) : nat :=
  length (neighbors (crossword self) v).

Definition mrv_degree_choice (self : CrosswordCreator) (a : Assignment)
  (v : Var) : Prop :=
  v ∈ variables (crossword self) ∧ (v ∉ a.*1) ∧
  ∀ u, u ∈ variables (crossword self) → u ∉ a.*1 →
    remaining self v ≤ remaining self u ∧
    (remaining self v = remaining self u → degree self u ≤ degree self v).

(** The arcs that the specification enqueues after a revision of [x]
    against [y]: one per slot overlapping [x], [y] excepted. *)
Definition arcs_to_recheck_spec (c : Crossword) (x y : Var) : list arc :=
  (fun z => (z, x)) <$> filter (fun z => z ≠ y) (neighbors c x).

(** The state of the domains from node consistency on: every slot of the
    puzzle, and nothing else, has a domain; a domain is a set (no word
    twice) of words of the length of its slot. *)
Definition node_consistent (self : CrosswordCreator) : Prop :=
  (∀ v, is_Some (domains self !! v) ↔ v ∈ variables (crossword self)) ∧
  (∀ v d, domains self !! v = Some d →
          NoDup d ∧ ∀ w, w ∈ d → String.length w = var_length v).

(** The arcs of a queue join distinct slots of the puzzle. *)
Definition arcs_on_slots (c : Crossword) (arcs : list arc) : Prop :=
  ∀ x y, (x, y) ∈ arcs → x ∈ variables c ∧ y ∈ variables c ∧ x ≠ y.

(** ** Examples *)

Module Examples.
(** Two crossing slots of length three: the second letter of [A] is the
    first letter of [B]. *)
Definition A : Var := mkVar 0 0 ACROSS 3.
Definition B : Var := mkVar 0 1 DOWN 3.
Definition crossing : gmap (Var * Var) overlap :=
  <[(A, B) := Some (1, 0)]> (<[(B, A) := Some (0, 1)]> ∅).
Definition cat_ace : Crossword := mkCrossword [A; B] ["CAT"; "ACE"] crossing.
Definition dog_cat : Crossword := mkCrossword [A; B] ["DOG"; "CAT"] crossing.
Definition cat_ace_dog : Crossword :=
  mkCrossword [A; B] ["CAT"; "ACE"; "DOG"] crossing.

(** Two slots that do not cross. *)
Definition C : Var := mkVar 2 0 ACROSS 3.
Definition apart : gmap (Var * Var) overlap :=
  <[(A, C) := None]> (<[(C, A) := None]> ∅).
Definition parallel : Crossword := mkCrossword [A; C] ["CAT"; "DOG"] apart.

(** A solver whose slots have domains of different sizes. *)
Definition uneven : CrosswordCreator :=
  mkCreator cat_ace (<[A := ["CAT"; "ACE"]]> (<[B := ["ACE"]]> ∅)).

(** Always the first element of the population. *)
Definition first_draw : nat → nat := fun _ => 0.

Definition with_domains (c : Crossword) (dA : list word) (v : Var)
  (dv : list word) : CrosswordCreator :=
  mkCreator c (<[A := dA]> (<[v := dv]> ∅)).
End Examples.

(** ** The letter grid (generate.py, lines 20-34)

    The dimensions [self.crossword.width] and [self.crossword.height] belong
    to the module [crossword], which is not part of the sources: they are
    parameters here.  A cell holds [None] or a letter. *)

Abbreviation grid := (list (list (option ascii))) (only parsing).

(** [letters[i][j] = ch]: an index past the end of the outer or of the
    inner list is an [IndexError]. *)
Definition grid_set (letters : grid) (i j : nat) (ch : ascii)
  : outcome grid :=
  match letters !! i with
  | None => Raise IndexError
  | Some row =>
      if decide (j < length row)
      then Ok (<[i := <[j := Some ch]> row]> letters)
      else Raise IndexError
  end.

(** [letters[i][j]] read. *)
Definition grid_get (letters : grid) (i j : nat) : option (option ascii) :=
  letters !! i ≫= fun row => row !! j.

(** The cell [(i, j)] of the [k]-th letter of a slot: rows grow downwards
    for a slot that runs [DOWN], columns to the right for [ACROSS]. *)
Definition cell (variable : Var) (k : nat) : nat * nat :=
  (var_i variable + (if decide (var_direction variable = DOWN) then k else 0),
   var_j variable + (if decide (var_direction variable = ACROSS) then k else 0)).

(** The loop [for k in range(len(word))]. *)
Fixpoint write_word (variable : Var) (w : word) (ks : list nat)
  (letters : grid) : outcome grid :=
  match ks with
  | [] => Ok letters
  | k :: ks' =>
      ch ← str_index w k;
      letters' ← grid_set letters (cell variable k).1 (cell variable k).2 ch;
      write_word variable w ks' letters'
  end.

(** The loop [for variable, word in assignment.items()]. *)
Fixpoint write_words (items : Assignment) (letters : grid) : outcome grid :=
  match items with
  | [] => Ok letters
  | (variable, w) :: items' =>
      letters' ← write_word variable w (seq 0 (String.length w)) letters;
      write_words items' letters'
  end.

Definition letter_grid (height width : nat) (assignment : Assignment)
  : outcome grid :=
  write_words assignment (replicate height (replicate width None)).

(** ** More specification vocabulary *)

(** [w], a word of [x]'s domain, has a support in [y]'s domain. *)
Definition supported (self : CrosswordCreator) (x y : Var) (w : word) : Prop :=
  ∃ dy w', domains self !! y = Some dy ∧ w' ∈ dy ∧
           supports (crossword self) x y w w'.

(** A solution of a puzzle: a word of the vocabulary for every slot, and
    for slots only, that is valid. *)
Definition solution (c : Crossword) (s : Assignment) : Prop :=
  complete c s ∧ valid c s ∧
  ∀ v w, (v, w) ∈ s → v ∈ variables c ∧ w ∈ words c.

(** Some entry of the assignment writes the letter [ch] in the cell
    [(i, j)]. *)
Definition written (a : Assignment) (i j : nat) (ch : ascii) : Prop :=
  ∃ v w k, (v, w) ∈ a ∧ String.get k w = Some ch ∧ cell v k = (i, j).

(** Every letter of every word lies inside a grid of the given size. *)
Definition fits_grid (height width : nat) (a : Assignment) : Prop :=
  ∀ v w k, (v, w) ∈ a → k < String.length w →
           (cell v k).1 < height ∧ (cell v k).2 < width.

(** The writes of [letter_grid] in the order of the loops. *)
Definition word_writes (variable : Var) (w : word) (ks : list nat)
  : list (nat * nat * ascii) :=
  omap (fun k => (fun ch => (cell variable k, ch)) <$> String.get k w) ks.

Definition writes (a : Assignment) : list (nat * nat * ascii) :=
  flat_map (fun '(variable, w) =>
              word_writes variable w (seq 0 (String.length w))) a.

(** The letter of the last write to a cell, if any. *)
Fixpoint last_write (ws : list (nat * nat * ascii)) (i j : nat)
  : option ascii :=
  match ws with
  | [] => None
  | (c, ch) :: ws' =>
      match last_write ws' i j with
      | Some ch' => Some ch'
      | None => if decide (c = (i, j)) then Some ch else None
      end
  end.

(** A grid of [height] rows of [width] cells. *)
Definition has_shape (height width : nat) (letters : grid) : Prop :=
  length letters = height ∧ ∀ row, row ∈ letters → length row = width.

(** A list of writes carried out one after the other. *)
Fixpoint apply_writes (ws : list (nat * nat * ascii)) (letters : grid)
  : outcome grid :=
  match ws with
  | [] => Ok letters
  | (c, ch) :: ws' =>
      letters' ← grid_set letters c.1 c.2 ch; apply_writes ws' letters'
  end.

(** Two entries never write different letters in one cell. *)
Definition writes_agree (a : Assignment) : Prop :=
  ∀ i j ch1 ch2, written a i j ch1 → written a i j ch2 → ch1 = ch2.

(** [node_consistent], as a test that can be run. *)
Definition node_consistent_check (self : CrosswordCreator) : bool :=
  forallb (fun v => bool_decide (is_Some (domains self !! v)))
          (variables (crossword self))
  && forallb (fun kv =>
        bool_decide (kv.1 ∈ variables (crossword self)) &&
        bool_decide (NoDup kv.2) &&
        forallb (fun w => bool_decide (String.length w = var_length kv.1)) kv.2)
      (map_to_list (domains self)).

(** ** Further examples *)

Module MoreExamples.
(** The crossing slots of [Examples] with a vocabulary of mixed lengths. *)
Definition mixed : Crossword :=
  mkCrossword [Examples.A; Examples.B] ["CAT"; "HOUSE"; "ACE"; "AT"]
    Examples.crossing.
(** The same slots with a vocabulary in which no word has three letters. *)
Definition misfit : Crossword :=
  mkCrossword [Examples.A; Examples.B] ["AT"; "HOUSE"] Examples.crossing.
End MoreExamples.

(** * Verification *)

(** ** Outcomes *)

Lemma bind_Ok {A B} (m : outcome A) (f : A → outcome B) (b : B) :
  m ≫= f = Ok b → ∃ a, m = Ok a ∧ f a = Ok b.
Proof. destruct m; simpl; [eauto | discriminate | discriminate]. Qed.

Lemma bind_fuel {A B} (m : outcome A) (f : A → outcome B) :
  m ≠ NoFuel → (∀ a, f a ≠ NoFuel) → m ≫= f ≠ NoFuel.
Proof. intros Hm Hf. destruct m; [apply Hf|done..]. Qed.

(** Peel the successful steps off a hypothesis [... = Ok _]. *)
Ltac inv_ok :=
  repeat match goal with
  | H : _ ≫= _ = Ok _ |- _ =>
      let a := fresh "r" in
      let E := fresh "E" in
      apply bind_Ok in H as (a & E & H)
  | H : Ok _ = Ok _ |- _ => inversion H; subst; clear H
  | H : Raise _ = Ok _ |- _ => discriminate H
  | H : NoFuel = Ok _ |- _ => discriminate H
  | H : (let '(_, _) := ?p in _) = Ok _ |- _ => destruct p
  end.

(** ** Removing words from domains *)

Lemma set_remove_Ok (w : word) (s s' : list word) :
  set_remove w s = Ok s' →
  w ∈ s ∧ s' = filter (fun w' => w' ≠ w) s ∧ length s' < length s.
Proof.
  unfold set_remove. case_decide as Hin; [|discriminate].
  intros [= <-]. split_and!; [done..|].
  apply (length_filter_lt _ _ w); [done|]. by intros [].
Qed.

Lemma total_size_insert (D : gmap Var (list word)) (v : Var) (d d' : list word) :
  D !! v = Some d →
  total_size (<[v := d']> D) + length d = total_size D + length d'.
Proof.
  intros Hv. unfold total_size.
  rewrite <-(insert_delete_eq D v d').
  rewrite (map_fold_delete_L _ _ v d D); [|intros; lia|done].
  rewrite map_fold_insert_L; [lia|intros; lia|apply lookup_delete_eq].
Qed.

Lemma domain_remove_Ok D variable w D' :
  domain_remove D variable w = Ok D' →
  ∃ d, D !! variable = Some d ∧ w ∈ d ∧
       D' = <[variable := filter (fun w' => w' ≠ w) d]> D.
Proof.
  unfold domain_remove. destruct (D !! variable) as [d|]; [|discriminate].
  intros H. inv_ok. apply set_remove_Ok in E as (? & -> & ?). subst. eauto.
Qed.

Lemma domain_remove_size D variable w D' :
  domain_remove D variable w = Ok D' → total_size D' < total_size D.
Proof.
  intros (d & Hd & Hw & ->)%domain_remove_Ok.
  pose proof (total_size_insert D variable d (filter (fun w' => w' ≠ w) d) Hd).
  assert (length (filter (fun w' => w' ≠ w) d) < length d); [|lia].
  apply (length_filter_lt _ _ w); [done|]. by intros [].
Qed.


Lemma kept_nil v d : kept [] v d = d.
Proof.
  unfold kept. induction d as [|w d IH]; [done|].
  rewrite filter_cons_True; [by rewrite IH|]. apply not_elem_of_nil.
Qed.

Lemma kept_cons variable w rest v d :
  kept ((variable, w) :: rest) v d =
  kept rest v (if decide (v = variable)
               then filter (fun w' => w' ≠ w) d else d).
Proof.
  unfold kept. case_decide as Hv.
  - subst. rewrite list_filter_filter. apply list_filter_iff.
    intros w'. rewrite not_elem_of_cons. intuition congruence.
  - apply list_filter_iff. intros w'. rewrite not_elem_of_cons.
    intuition congruence.
Qed.

Lemma remove_words_lookup removeWords D D' :
  remove_words removeWords D = Ok D' →
  ∀ v, D' !! v = kept removeWords v <$> D !! v.
Proof.
  revert D. induction removeWords as [|[variable w] rest IH]; intros D H v.
  - injection H as <-. destruct (D !! v); simpl; by rewrite ?kept_nil.
  - simpl in H. inv_ok.
    apply domain_remove_Ok in E as (d & Hd & Hw & ->).
    rewrite (IH _ H), lookup_insert. case_decide as Hv.
    + subst. rewrite Hd. simpl. by rewrite kept_cons, decide_True.
    + destruct (D !! v); simpl; [|done].
      by rewrite kept_cons, decide_False.
Qed.

Lemma remove_words_size removeWords D D' :
  remove_words removeWords D = Ok D' →
  total_size D' + length removeWords ≤ total_size D.
Proof.
  revert D. induction removeWords as [|[variable w] rest IH]; intros D H.
  - injection H as <-. simpl. lia.
  - simpl in H. inv_ok. apply domain_remove_size in E.
    apply IH in H. simpl. lia.
Qed.

Lemma kept_subseteq removeWords v d : kept removeWords v d ⊆ d.
Proof. intros w [_ ?]%list_elem_of_filter. done. Qed.

Lemma kept_other removeWords v d :
  v ∉ removeWords.*1 → kept removeWords v d = d.
Proof.
  intros Hv. unfold kept. induction d as [|w d IH]; [done|].
  rewrite filter_cons_True; [by rewrite IH|].
  intros Hin. apply Hv. apply list_elem_of_fmap. by exists (v, w).
Qed.

(** ** Revise *)


Lemma str_index_Ok w k ch : str_index w k = Ok ch → String.get k w = Some ch.
Proof. unfold str_index. destruct (String.get k w); [congruence|discriminate]. Qed.

Lemma find_pal_true c x y wordX dy :
  find_pal c x y wordX dy = Ok true →
  ∃ wordY, wordY ∈ dy ∧ supports c x y wordX wordY.
Proof.
  induction dy as [|wordY dy IH]; simpl; [discriminate|].
  destruct (overlaps c !! (x, y)) as [[[px py]|]|] eqn:Hov; [| |discriminate].
  - intros H. inv_ok. case_decide as Hpal.
    + exists wordY. split; [left|].
      destruct Hpal as [-> Hne]. exists px, py, r0.
      split_and!; auto using str_index_Ok.
    + destruct (IH H) as (w' & ? & ?). exists w'. split; [by right|done].
  - intros H. destruct (IH H) as (w' & ? & ?). exists w'. split; [by right|done].
Qed.

Lemma find_pal_no_overlap c x y wordX dy :
  overlaps c !! (x, y) = Some None → find_pal c x y wordX dy = Ok false.
Proof. intros Hov. induction dy as [|wordY dy IH]; simpl; [done|]. by rewrite Hov. Qed.

Lemma revise_scan_Ok self x y dx removeWords revisionMade :
  revise_scan self x y dx = Ok (removeWords, revisionMade) →
  (∀ p, p ∈ removeWords → p.1 = x ∧ p.2 ∈ dx) ∧
  (revisionMade = false → removeWords = []) ∧
  (revisionMade = true → removeWords ≠ []) ∧
  (∀ w, w ∈ dx → (x, w) ∉ removeWords →
        ∃ dy wordY, domains self !! y = Some dy ∧ wordY ∈ dy ∧
                    supports (crossword self) x y w wordY).
Proof.
  revert removeWords revisionMade.
  induction dx as [|wordX dx IH]; intros removeWords revisionMade; simpl.
  - intros [= <- <-]. split_and!; [|done|done|].
    + by intros p ?%elem_of_nil.
    + by intros w ?%elem_of_nil.
  - destruct (domains self !! y) as [dy|] eqn:Hy; [|discriminate].
    intros H. inv_ok.
    destruct (IH _ _ E0) as (Hin & Hf & Ht & Hsup).
    destruct r; inv_ok.
    + split_and!; [|done|done|].
      * intros p Hp. destruct (Hin p Hp). split; [done|by right].
      * intros w [->|Hw]%elem_of_cons Hnot; [|by apply Hsup].
        apply find_pal_true in E as (wordY & ? & ?). eauto.
    + split_and!; [|done|done|].
      * intros p [->|Hp]%elem_of_cons; [split; [done|left]|].
        destruct (Hin p Hp). split; [done|by right].
      * intros w Hw Hnot. apply not_elem_of_cons in Hnot as [Hne Hnot].
        apply elem_of_cons in Hw as [->|Hw]; [done|by apply Hsup].
Qed.

(** The effect of a successful [revise(x, y)]: some words of [x]'s domain
    are removed, and every word that stays has a support in [y]'s domain. *)
Lemma revise_Ok self x y revised self' :
  revise self x y = Ok (revised, self') →
  crossword self' = crossword self ∧
  ∃ removeWords,
    (∀ v, domains self' !! v = kept removeWords v <$> domains self !! v) ∧
    (∀ p, p ∈ removeWords → p.1 = x) ∧
    (revised = false → removeWords = []) ∧
    (revised = true → removeWords ≠ []) ∧
    total_size (domains self') + length removeWords ≤ total_size (domains self) ∧
    (∀ dx w, domains self !! x = Some dx → w ∈ dx → (x, w) ∉ removeWords →
       ∃ dy wordY, domains self !! y = Some dy ∧ wordY ∈ dy ∧
                   supports (crossword self) x y w wordY).
Proof.
  unfold revise. destruct (domains self !! x) as [dx|] eqn:Hx; [|discriminate].
  intros H. inv_ok.
  apply revise_scan_Ok in E as (Hin & Hf & Ht & Hsup).
  rename l into removeWords.
  split; [done|]. exists removeWords. simpl. split_and!; [|..|done|done| |].
  - by apply remove_words_lookup.
  - intros p Hp. by destruct (Hin p Hp).
  - by apply remove_words_size.
  - intros dx' w [= <-]. apply Hsup.
Qed.

Lemma revise_other_domains self x y revised self' v :
  revise self x y = Ok (revised, self') → v ≠ x →
  domains self' !! v = domains self !! v.
Proof.
  intros (_ & removeWords & Hlook & Hkeys & _)%revise_Ok Hv.
  rewrite Hlook. destruct (domains self !! v) as [d|]; [|done]. simpl.
  rewrite kept_other; [done|].
  intros (p & -> & Hp)%list_elem_of_fmap. by apply Hkeys in Hp.
Qed.

Lemma revise_subseteq self x y revised self' v d' :
  revise self x y = Ok (revised, self') → domains self' !! v = Some d' →
  ∃ d, domains self !! v = Some d ∧ d' ⊆ d.
Proof.
  intros (_ & removeWords & Hlook & _)%revise_Ok. rewrite Hlook.
  destruct (domains self !! v) as [d|]; [|discriminate].
  intros [= <-]. exists d. split; [done|apply kept_subseteq].
Qed.

Lemma revise_no_revision self x y self' :
  revise self x y = Ok (false, self') → self' = self.
Proof.
  intros (Hc & removeWords & Hlook & _ & Hnil & _)%revise_Ok.
  rewrite (Hnil eq_refl) in Hlook.
  destruct self as [c D], self' as [c' D']. simpl in *. f_equal; [done|].
  apply map_eq. intros v. rewrite Hlook.
  destruct (D !! v); simpl; by rewrite ?kept_nil.
Qed.

Lemma revise_revision self x y self' :
  revise self x y = Ok (true, self') →
  total_size (domains self') < total_size (domains self).
Proof.
  intros (_ & removeWords & _ & _ & _ & Hcons & Hsize & _)%revise_Ok.
  specialize (Hcons eq_refl). destruct removeWords; [done|]. simpl in Hsize. lia.
Qed.

(** ** Termination of AC-3 *)

Lemma list_remove_head {A} `{EqDecision A} (x : A) (l : list A) :
  list_remove x (x :: l) = Ok l.
Proof. simpl. by rewrite decide_True. Qed.

Lemma length_neighbors c var : length (neighbors c var) ≤ length (variables c).
Proof. apply length_filter. Qed.

Lemma ac3_step_Ok self x y rest self' arcs' :
  ac3_step self ((x, y) :: rest) = Ok (self', arcs') →
  ∃ revised, revise self x y = Ok (revised, self') ∧
    arcs' = if revised
            then rest ++ ((fun neighbor => (neighbor, x)) <$>
                            neighbors (crossword self) x)
            else rest.
Proof.
  unfold ac3_step. rewrite list_remove_head. simpl.
  destruct (revise self x y) as [[revised s]| |] eqn:Hrev; [|discriminate..].
  simpl. pose proof (revise_Ok _ _ _ _ _ Hrev) as [Hc _].
  exists revised. destruct revised; inv_ok; by rewrite ?Hc.
Qed.

Lemma ac3_step_decreases self arcs self' arcs' :
  ac3_step self arcs = Ok (self', arcs') →
  crossword self' = crossword self ∧ ac3_fuel self' arcs' < ac3_fuel self arcs.
Proof.
  destruct arcs as [|[x y] rest]; [discriminate|].
  intros (revised & Hrev & ->)%ac3_step_Ok.
  pose proof (revise_Ok _ _ _ _ _ Hrev) as [Hc _]. split; [done|].
  unfold ac3_fuel. rewrite Hc. destruct revised.
  - apply revise_revision in Hrev.
    pose proof (length_neighbors (crossword self) x).
    rewrite length_app, length_fmap.
    pose proof (Nat.mul_le_mono_l _ _ (length (variables (crossword self)))
                  Hrev) as Hmul.
    rewrite Nat.mul_succ_r in Hmul. cbn [length]. lia.
  - apply revise_no_revision in Hrev as ->. simpl. lia.
Qed.

(** Only the two bounded loops can run out of budget. *)
Lemma remove_words_fuel removeWords D : remove_words removeWords D ≠ NoFuel.
Proof.
  revert D. induction removeWords as [|[v w] rest IH]; intros D; [done|].
  simpl. unfold domain_remove. destruct (D !! v); [|done].
  unfold set_remove. case_decide; [|done]. simpl. apply IH.
Qed.

Lemma find_pal_fuel c x y wordX dy : find_pal c x y wordX dy ≠ NoFuel.
Proof.
  induction dy as [|wordY dy IH]; [done|]. simpl.
  destruct (overlaps c !! (x, y)) as [[[px py]|]|]; [|done..].
  unfold str_index. destruct (String.get px wordX); [|done].
  destruct (String.get py wordY); [|done]. simpl. by case_decide.
Qed.

Lemma revise_scan_fuel self x y dx : revise_scan self x y dx ≠ NoFuel.
Proof.
  induction dx as [|wordX dx IH]; [done|]. simpl.
  destruct (domains self !! y) as [dy|]; [|done].
  pose proof (find_pal_fuel (crossword self) x y wordX dy) as Hpal.
  destruct (find_pal _ _ _ _ _) as [pal| |]; [|done..]. simpl.
  destruct (revise_scan self x y dx) as [[rw made]| |]; [|done..].
  simpl. by destruct pal.
Qed.

Lemma revise_fuel self x y : revise self x y ≠ NoFuel.
Proof.
  unfold revise. destruct (domains self !! x) as [dx|]; [|done].
  pose proof (revise_scan_fuel self x y dx) as Hscan.
  destruct (revise_scan self x y dx) as [[rw made]| |]; [|done..]. simpl.
  pose proof (remove_words_fuel rw (domains self)) as Hrw.
  by destruct (remove_words rw (domains self)).
Qed.

Lemma enforce_node_consistency_fuel self :
  enforce_node_consistency self ≠ NoFuel.
Proof.
  unfold enforce_node_consistency.
  set (rw := flat_map _ _).
  pose proof (remove_words_fuel rw (domains self)) as Hrw.
  by destruct (remove_words rw (domains self)).
Qed.

Lemma ac3_step_fuel self arcs : ac3_step self arcs ≠ NoFuel.
Proof.
  destruct arcs as [|[x y] rest]; [done|].
  unfold ac3_step. rewrite list_remove_head. simpl.
  pose proof (revise_fuel self x y) as Hrev.
  by destruct (revise self x y) as [[[] ?]| |].
Qed.

Lemma ac3_loop_terminates fuel self arcs :
  ac3_fuel self arcs ≤ fuel → ac3_loop fuel self arcs ≠ NoFuel.
Proof.
  revert self arcs. induction fuel as [|fuel IH]; intros self arcs Hfuel.
  - destruct arcs; [done|]. unfold ac3_fuel in Hfuel. simpl in Hfuel. lia.
  - destruct arcs as [|a rest]; [done|]. cbn [ac3_loop].
    pose proof (ac3_step_fuel self (a :: rest)) as Hne.
    destruct (ac3_step self (a :: rest)) as [[s q]| |] eqn:Hstep; [|done..].
    simpl. apply IH. apply ac3_step_decreases in Hstep. lia.
Qed.

Lemma ac3_loop_more_fuel fuel fuel' self arcs :
  ac3_loop fuel self arcs ≠ NoFuel → fuel ≤ fuel' →
  ac3_loop fuel' self arcs = ac3_loop fuel self arcs.
Proof.
  revert fuel' self arcs.
  induction fuel as [|fuel IH]; intros fuel' self arcs Hne Hle.
  - destruct arcs; [by destruct fuel'|done].
  - destruct fuel' as [|fuel']; [lia|].
    destruct arcs as [|a rest]; [done|]. cbn [ac3_loop] in *.
    destruct (ac3_step self (a :: rest)) as [[s q]| |]; [|done..].
    simpl in *. apply IH; [done|lia].
Qed.

(** ** Arc consistency established by AC-3 *)


Lemma all_arcs_spec c x y p :
  overlaps c !! (x, y) = Some (Some p) → (x, y) ∈ all_arcs c.
Proof.
  intros Hov. unfold all_arcs. apply list_elem_of_fmap.
  exists ((x, y), Some p). split; [done|].
  apply list_elem_of_filter. split; [done|]. by apply elem_of_map_to_list.
Qed.

Lemma ac3_invariant_init self : ac3_invariant self (all_arcs (crossword self)).
Proof. intros x y p Hov. left. by eapply all_arcs_spec. Qed.

Lemma neighbors_spec c z x :
  z ∈ neighbors c x ↔ z ∈ variables c ∧ z ≠ x ∧ overlapping c z x = true.
Proof. unfold neighbors. rewrite list_elem_of_filter. tauto. Qed.

Lemma ac3_step_invariant self arcs self' arcs' :
  overlaps_on_slots (crossword self) →
  ac3_invariant self arcs →
  ac3_step self arcs = Ok (self', arcs') →
  ac3_invariant self' arcs'.
Proof.
  intros Hwf Hinv Hstep. destruct arcs as [|[x y] rest]; [discriminate|].
  apply ac3_step_Ok in Hstep as (revised & Hrev & ->).
  pose proof (revise_Ok _ _ _ _ _ Hrev)
    as (Hc & removeWords & Hlook & Hkeys & _ & _ & _ & Hsup).
  assert (∀ v, v ≠ x → domains self' !! v = domains self !! v) as Hframe
    by eauto using revise_other_domains.
  assert (∀ p, overlaps (crossword self) !! (x, y) = Some (Some p) →
               arc_consistent self' x y) as Hxy.
  { intros p Hov dx' w Hdx' Hw. rewrite Hlook in Hdx'.
    destruct (domains self !! x) as [dx|] eqn:Hdx; [|discriminate].
    injection Hdx' as <-. apply list_elem_of_filter in Hw as [Hkept Hw].
    destruct (Hsup dx w eq_refl Hw Hkept) as (dy & w' & Hdy & Hw' & Hs).
    exists dy, w'. rewrite Hc, Hframe; [done|]. by destruct (Hwf x y p Hov). }
  intros x' y' p' Hov. rewrite Hc in Hov.
  destruct (Hinv x' y' p' Hov) as [Hin|Hcons].
  - apply elem_of_cons in Hin as [[= -> ->]|Hin].
    + right. by eapply Hxy.
    + left. destruct revised; [|done]. apply elem_of_app. by left.
  - destruct revised; [|apply revise_no_revision in Hrev as ->; by right].
    destruct (decide (y' = x)) as [->|Hy'].
    + left. apply elem_of_app. right. apply list_elem_of_fmap.
      exists x'. split; [done|]. apply neighbors_spec.
      destruct (Hwf x' x p' Hov). unfold overlapping. by rewrite Hov.
    + right. intros dx' w Hdx' Hw. rewrite Hlook in Hdx'.
      destruct (domains self !! x') as [dx|] eqn:Hdx; [|discriminate].
      injection Hdx' as <-. apply kept_subseteq in Hw.
      destruct (Hcons dx w Hdx Hw) as (dy & w' & Hdy & Hw' & Hs).
      exists dy, w'. by rewrite Hc, Hframe.
Qed.

Lemma ac3_loop_invariant fuel self arcs self' :
  overlaps_on_slots (crossword self) →
  ac3_invariant self arcs →
  ac3_loop fuel self arcs = Ok self' →
  crossword self' = crossword self ∧ ac3_invariant self' [].
Proof.
  revert self arcs. induction fuel as [|fuel IH]; intros self arcs Hwf Hinv Hloop.
  - destruct arcs; [|discriminate]. injection Hloop as <-. done.
  - destruct arcs as [|a rest]; [injection Hloop as <-; done|].
    cbn [ac3_loop] in Hloop. inv_ok.
    pose proof (ac3_step_decreases _ _ _ _ E) as [Hc _].
    apply ac3_step_invariant in E; [|done..].
    apply IH in Hloop as [Hc' ?]; [|by rewrite Hc|done].
    split; [congruence|done].
Qed.

(** ** Assignments as dictionaries *)

Lemma dict_set_fresh var value (a : Assignment) :
  var ∉ a.*1 → dict_set var value a = a ++ [(var, value)].
Proof.
  induction a as [|[k w] a IH]; simpl; [done|].
  intros [Hne Hnot]%not_elem_of_cons.
  rewrite decide_False by done. by rewrite IH.
Qed.

Lemma dict_pop_fresh var value (a : Assignment) :
  var ∉ a.*1 → dict_pop var (a ++ [(var, value)]) = Ok a.
Proof.
  induction a as [|[k w] a IH]; simpl.
  - intros _. by rewrite decide_True.
  - intros [Hne Hnot]%not_elem_of_cons.
    rewrite decide_False by done. by rewrite IH.
Qed.

Lemma dict_pop_set var value (a : Assignment) :
  var ∉ a.*1 → dict_pop var (dict_set var value a) = Ok a.
Proof. intros Hvar. rewrite dict_set_fresh by done. by apply dict_pop_fresh. Qed.

(** ** Choosing a slot *)

Section SearchFacts.
Variable random : nat → nat.
Variable self : CrosswordCreator.

Lemma sample_Ok population rng v rng' :
  sample random population rng = Ok (v, rng') → v ∈ population ∧ rng' = S rng.
Proof.
  unfold sample.
  destruct (population !! _) as [v'|] eqn:Hv; [|discriminate].
  intros [= <- <-]. split; [|done]. by eapply list_elem_of_lookup_2.
Qed.

Lemma select_unassigned_variable_Ok a rng var rng' :
  select_unassigned_variable random self a rng = Ok (var, rng') →
  var ∈ variables (crossword self) ∧ (var ∉ a.*1) ∧ rng' = S rng.
Proof.
  intros [Hin ->]%sample_Ok. apply list_elem_of_filter in Hin as [? ?]. done.
Qed.

Lemma assignment_complete_true a :
  assignment_complete self a = true ↔
  ∀ v, v ∈ variables (crossword self) → v ∈ a.*1.
Proof.
  unfold assignment_complete. rewrite forallb_forall. split.
  - intros H v Hv. eapply bool_decide_eq_true_1, H.
    by apply list_elem_of_In.
  - intros H v Hv. apply bool_decide_eq_true_2, H.
    by apply list_elem_of_In.
Qed.

(** ** A failed search leaves the assignment as it found it *)

Lemma try_values_restores rec var values a rng a' rng' :
  (∀ a0 rng0 a1 rng1, rec a0 rng0 = Ok (None, a1, rng1) → a1 = a0) →
  var ∉ a.*1 →
  try_values rec self var values a rng = Ok (None, a', rng') → a' = a.
Proof.
  intros Hrec Hvar. revert rng.
  induction values as [|value values IH]; intros rng; simpl.
  - by intros [= <- <-].
  - intros H. inv_ok. destruct r; [|by eapply IH].
    inv_ok. destruct o as [r|]; [discriminate|]. inv_ok.
    apply Hrec in E0 as ->. rewrite dict_pop_set in E1 by done.
    injection E1 as <-. by eapply IH.
Qed.

Lemma backtrack_fuel_restores fuel a rng a' rng' :
  backtrack_fuel random fuel self a rng = Ok (None, a', rng') → a' = a.
Proof.
  revert a rng a' rng'. induction fuel as [|fuel IH]; intros a rng a' rng'.
  - discriminate.
  - simpl. destruct (assignment_complete self a); [discriminate|].
    intros H. inv_ok.
    apply select_unassigned_variable_Ok in E as (_ & Hvar & _).
    eapply try_values_restores; [|done..]. apply IH.
Qed.

(** ** What the consistency check establishes *)

Lemma all_ok_true {A} (f : A → outcome bool) (l : list A) :
  all_ok f l = Ok true ↔ ∀ x, x ∈ l → f x = Ok true.
Proof.
  induction l as [|x l IH]; simpl.
  - split; [by intros _ x ?%elem_of_nil|done].
  - split.
    + intros H. inv_ok. destruct r; [|discriminate].
      intros x' [->|?]%elem_of_cons; [done|]. by apply IH.
    + intros H. rewrite (H x) by left. simpl. apply IH.
      intros x' ?. apply H. by right.
Qed.

Lemma all_unique_true (a : Assignment) : all_unique a = true ↔ all_different a.
Proof.
  unfold all_unique, all_different. rewrite forallb_forall. split.
  - intros H vA wA vB wB HA%list_elem_of_In HB%list_elem_of_In Hne.
    specialize (H _ HA). rewrite forallb_forall in H. specialize (H _ HB).
    simpl in H. rewrite bool_decide_eq_false_2 in H by done. simpl in H.
    by apply negb_true_iff, bool_decide_eq_false in H.
  - intros H [vA wA] HA%list_elem_of_In. apply forallb_forall.
    intros [vB wB] HB%list_elem_of_In. simpl.
    destruct (decide (vA = vB)) as [->|Hne].
    + by rewrite bool_decide_eq_true_2.
    + rewrite bool_decide_eq_false_2 by done. simpl.
      apply negb_true_iff, bool_decide_eq_false. by eapply H.
Qed.

Lemma lengths_ok_true (a : Assignment) : lengths_ok a = true ↔ lengths_match a.
Proof.
  unfold lengths_ok, lengths_match. rewrite forallb_forall. split.
  - intros H v w Hin%list_elem_of_In. by apply H, bool_decide_eq_true in Hin.
  - intros H [v w] Hin%list_elem_of_In. apply bool_decide_eq_true. by apply H.
Qed.

Lemma no_conflict_true c vA wA vB wB pA pB :
  no_conflict c (vA, wA) (vB, wB) = Ok true → vA ≠ vB →
  overlaps c !! (vA, vB) = Some (Some (pA, pB)) →
  ∃ ch, String.get pA wA = Some ch ∧ String.get pB wB = Some ch.
Proof.
  unfold no_conflict. simpl. intros H Hne Hov.
  rewrite decide_False, Hov in H by done. inv_ok.
  apply bool_decide_eq_true in H1 as ->. eauto using str_index_Ok.
Qed.

Lemma consistent_true a :
  consistent self a = Ok true → valid (crossword self) a.
Proof.
  unfold consistent.
  destruct (all_unique a) eqn:Huniq; [|discriminate].
  destruct (lengths_ok a) eqn:Hlen; [|discriminate].
  rewrite all_ok_true. intros Hall. split_and!.
  - by apply all_unique_true.
  - by apply lengths_ok_true.
  - intros vA wA vB wB pA pB HA HB Hne Hov.
    specialize (Hall _ HA). rewrite all_ok_true in Hall.
    eapply no_conflict_true; eauto.
Qed.

Lemma valid_nil c : valid c [].
Proof.
  split_and!.
  - by intros ???? ?%elem_of_nil.
  - by intros ?? ?%elem_of_nil.
  - by intros ?????? ?%elem_of_nil.
Qed.

(** ** The shape of a run of the search *)

(** The loop over the candidate words either fails, having restored the
    assignment after every consistent candidate was searched in vain, or
    returns what the search below one consistent candidate returned. *)
Lemma try_values_Ok fuel var values a rng res a' rng' :
  var ∉ a.*1 →
  try_values (backtrack_fuel random fuel self) self var values a rng
    = Ok (res, a', rng') →
  (res = None ∧ a' = a ∧
   ∀ value, value ∈ values →
     consistent self (dict_set var value a) = Ok true →
     ∃ rng0 rng1,
       backtrack_fuel random fuel self (dict_set var value a) rng0
         = Ok (None, dict_set var value a, rng1))
  ∨ (∃ r value rng0,
       res = Some r ∧ value ∈ values ∧
       consistent self (dict_set var value a) = Ok true ∧
       backtrack_fuel random fuel self (dict_set var value a) rng0
         = Ok (Some r, a', rng')).
Proof.
  intros Hvar. revert rng.
  induction values as [|value values IH]; intros rng; simpl.
  - intros [= <- <- <-]. left. split_and!; [done..|].
    by intros value ?%elem_of_nil.
  - intros H. inv_ok. destruct r as [|].
    + inv_ok. destruct o as [r|].
      * inv_ok. right. exists r, value, rng. split_and!; [done|left|done..].
      * inv_ok. pose proof (backtrack_fuel_restores _ _ _ _ _ E0) as ->.
        rewrite dict_pop_set in E1 by done. injection E1 as <-.
        destruct (IH _ H) as [(-> & -> & Hall)|(r & value' & rng0 & -> & ? & ? & ?)].
        -- left. split_and!; [done..|].
           intros value' [->|?]%elem_of_cons ?; [eauto|by apply Hall].
        -- right. exists r, value', rng0. split_and!; [done|by right|done..].
    + destruct (IH _ H) as [(-> & -> & Hall)|(r & value' & rng0 & -> & ? & ? & ?)].
      * left. split_and!; [done..|].
        intros value' [->|?]%elem_of_cons ?; [congruence|by apply Hall].
      * right. exists r, value', rng0. split_and!; [done|by right|done..].
Qed.

(** A returned assignment is the dictionary itself, is complete, is valid
    if the search started from a valid assignment, and takes every new
    word from the domain of its slot. *)
Lemma backtrack_fuel_Some fuel a rng r a' rng' :
  backtrack_fuel random fuel self a rng = Ok (Some r, a', rng') →
  r = a' ∧ complete (crossword self) r ∧
  (valid (crossword self) a → valid (crossword self) r) ∧
  (∀ p, p ∈ r → p ∈ a ∨ ∃ d, domains self !! p.1 = Some d ∧ p.2 ∈ d).
Proof.
  revert a rng r a' rng'. induction fuel as [|fuel IH]; intros a rng r a' rng'.
  - discriminate.
  - simpl. destruct (assignment_complete self a) eqn:Hcomplete.
    + intros [= <- <- <-]. split_and!; [done| |done|by left].
      unfold complete. by apply assignment_complete_true.
    + intros H. inv_ok.
      apply select_unassigned_variable_Ok in E as (_ & Hvar & _).
      unfold order_domain_values in E0.
      destruct (domains self !! v) as [d|] eqn:Hd; [|discriminate].
      injection E0 as <-.
      apply try_values_Ok in H
        as [(? & _)|(r' & value & rng0 & [= <-] & Hvalue & Hcons & Hrec)];
        [done| |done].
      apply IH in Hrec as (-> & Hcompl & Hvalid & Hfrom).
      split_and!; [done..| |].
      * intros _. by apply Hvalid, consistent_true.
      * intros p Hp. destruct (Hfrom p Hp) as [Hin|?]; [|by right].
        rewrite dict_set_fresh in Hin by done.
        apply elem_of_app in Hin as [?|Hp'%list_elem_of_singleton];
          [by left|right]. subst p. eauto.
Qed.

(** ** Well-formed puzzles *)

Lemma well_formed_entry c x y ov :
  well_formed c = true → overlaps c !! (x, y) = Some ov →
  x ∈ variables c ∧ y ∈ variables c ∧ x ≠ y ∧
  ∀ p q, ov = Some (p, q) → p < var_length x ∧ q < var_length y.
Proof.
  unfold well_formed. intros [H _]%andb_true_iff Hov.
  rewrite forallb_forall in H.
  specialize (H ((x, y), ov)). simpl in H.
  rewrite <-list_elem_of_In, elem_of_map_to_list in H. specialize (H Hov).
  apply andb_true_iff in H as [H Hpos]. apply andb_true_iff in H as [H Hne].
  apply andb_true_iff in H as [Hx Hy].
  apply bool_decide_eq_true in Hx, Hy.
  apply negb_true_iff, bool_decide_eq_false in Hne.
  split_and!; [done..|]. intros p q ->.
  apply andb_true_iff in Hpos as [Hp Hq].
  apply Nat.ltb_lt in Hp, Hq. done.
Qed.

Lemma well_formed_total c x y :
  well_formed c = true → x ∈ variables c → y ∈ variables c → x ≠ y →
  is_Some (overlaps c !! (x, y)).
Proof.
  unfold well_formed. intros [_ H]%andb_true_iff Hx Hy Hne.
  rewrite forallb_forall in H. apply list_elem_of_In, H in Hx.
  rewrite forallb_forall in Hx. apply list_elem_of_In, Hx in Hy.
  rewrite bool_decide_eq_false_2 in Hy by done.
  by apply bool_decide_eq_true in Hy.
Qed.

Lemma well_formed_overlaps_on_slots c :
  well_formed c = true → overlaps_on_slots c.
Proof.
  intros Hwf x y p Hov.
  by destruct (well_formed_entry _ _ _ _ Hwf Hov) as (? & _ & ? & _).
Qed.

Lemma string_get_lt (w : word) (k : nat) :
  k < String.length w → is_Some (String.get k w).
Proof.
  revert k. induction w as [|ch w IH]; intros k; simpl; [lia|].
  destruct k as [|k]; [by eexists|]. intros ?. apply IH. lia.
Qed.

Lemma str_index_lt (w : word) (k : nat) :
  k < String.length w → ∃ ch, str_index w k = Ok ch.
Proof.
  intros [ch Hch]%string_get_lt. exists ch. unfold str_index. by rewrite Hch.
Qed.

(** ** The search runs to completion on a well-formed puzzle *)

Lemma all_ok_total {A} (f : A → outcome bool) (l : list A) :
  (∀ x, x ∈ l → ∃ b, f x = Ok b) → ∃ b, all_ok f l = Ok b.
Proof.
  induction l as [|x l IH]; intros Hf; simpl; [by eexists|].
  destruct (Hf x) as [b ->]; [left|]. simpl. destruct b; [|by eexists].
  apply IH. intros x' ?. apply Hf. by right.
Qed.

Lemma no_conflict_total A B :
  well_formed (crossword self) = true →
  A.1 ∈ variables (crossword self) → B.1 ∈ variables (crossword self) →
  String.length A.2 = var_length A.1 → String.length B.2 = var_length B.1 →
  ∃ b, no_conflict (crossword self) A B = Ok b.
Proof.
  intros Hwf HA HB HlenA HlenB. unfold no_conflict.
  case_decide as Hne; [by eexists|].
  destruct (well_formed_total _ _ _ Hwf HA HB Hne) as [ov Hov]. rewrite Hov.
  destruct ov as [[pA pB]|]; [|by eexists].
  destruct (well_formed_entry _ _ _ _ Hwf Hov) as (_ & _ & _ & Hpos).
  destruct (Hpos pA pB eq_refl) as [HpA HpB].
  destruct (str_index_lt A.2 pA) as [cA ->]; [lia|].
  destruct (str_index_lt B.2 pB) as [cB ->]; [lia|]. simpl. by eexists.
Qed.

Lemma consistent_total a :
  well_formed (crossword self) = true →
  (∀ p, p ∈ a → p.1 ∈ variables (crossword self)) →
  ∃ b, consistent self a = Ok b.
Proof.
  intros Hwf Hkeys. unfold consistent.
  destruct (all_unique a); [|by eexists].
  destruct (lengths_ok a) eqn:Hlen; [|by eexists].
  apply lengths_ok_true in Hlen.
  apply all_ok_total. intros [vA wA] HA. apply all_ok_total. intros [vB wB] HB.
  apply no_conflict_total; simpl; [done|by apply (Hkeys _ HA)|
    by apply (Hkeys _ HB)|by apply Hlen..].
Qed.

Lemma dict_set_keys var value (a : Assignment) p :
  var ∉ a.*1 → p ∈ dict_set var value a → p ∈ a ∨ p = (var, value).
Proof.
  intros Hvar. rewrite dict_set_fresh by done.
  intros [?|?%list_elem_of_singleton]%elem_of_app; auto.
Qed.

Lemma unassigned_shrinks var value a :
  var ∈ variables (crossword self) → var ∉ a.*1 →
  length (unassigned self (dict_set var value a)) < length (unassigned self a).
Proof.
  intros Hin Hvar. unfold unassigned. rewrite dict_set_fresh, fmap_app by done.
  simpl.
  rewrite (list_filter_iff _ (fun v => v ≠ var ∧ v ∉ a.*1)).
  - rewrite <-list_filter_filter. apply (length_filter_lt _ _ var); [|naive_solver].
    by apply list_elem_of_filter.
  - intros v. rewrite not_elem_of_app, list_elem_of_singleton. tauto.
Qed.

Lemma try_values_total fuel var values a rng :
  well_formed (crossword self) = true →
  (∀ p, p ∈ a → p.1 ∈ variables (crossword self)) →
  var ∈ variables (crossword self) → var ∉ a.*1 →
  (∀ value rng0, ∃ res a1 rng1,
     backtrack_fuel random fuel self (dict_set var value a) rng0
       = Ok (res, a1, rng1)) →
  ∃ res a' rng',
    try_values (backtrack_fuel random fuel self) self var values a rng
      = Ok (res, a', rng').
Proof.
  intros Hwf Hkeys Hin Hvar Hrec. revert rng.
  induction values as [|value values IH]; intros rng; simpl; [by do 3 eexists|].
  destruct (consistent_total (dict_set var value a)) as [ok ->]; [done| |].
  { intros p [?| ->]%dict_set_keys; [by apply Hkeys|done..]. }
  simpl. destruct ok; [|apply IH].
  destruct (Hrec value rng) as (res & a1 & rng1 & Hres). rewrite Hres. simpl.
  destruct res as [r|]; [by do 3 eexists|].
  apply backtrack_fuel_restores in Hres as ->.
  rewrite dict_pop_set by done. simpl. apply IH.
Qed.

Lemma sample_total population rng :
  population ≠ [] → ∃ v, sample random population rng = Ok (v, S rng).
Proof.
  intros Hne. unfold sample.
  destruct (lookup_lt_is_Some_2 population
              (random rng mod length population)) as [v ->]; [|by eexists].
  apply Nat.mod_upper_bound. by destruct population.
Qed.

Lemma unassigned_nonempty a :
  assignment_complete self a = false → unassigned self a ≠ [].
Proof.
  intros Hc Hnil. apply not_true_iff_false in Hc. apply Hc.
  apply assignment_complete_true. intros v Hv.
  destruct (decide (v ∈ a.*1)) as [|Hnot]; [done|].
  assert (v ∈ unassigned self a) as Hin by by apply list_elem_of_filter.
  rewrite Hnil in Hin. by apply elem_of_nil in Hin.
Qed.

Lemma backtrack_fuel_total fuel a rng :
  well_formed (crossword self) = true → domains_cover self →
  (∀ p, p ∈ a → p.1 ∈ variables (crossword self)) →
  length (unassigned self a) < fuel →
  ∃ res a' rng', backtrack_fuel random fuel self a rng = Ok (res, a', rng').
Proof.
  intros Hwf Hcover. revert a rng.
  induction fuel as [|fuel IH]; intros a rng Hkeys Hfuel; [lia|]. simpl.
  destruct (assignment_complete self a) eqn:Hc; [by do 3 eexists|].
  unfold select_unassigned_variable.
  destruct (sample_total (unassigned self a) rng) as [var Hsel];
    [by apply unassigned_nonempty|].
  rewrite Hsel. simpl.
  apply select_unassigned_variable_Ok in Hsel as (Hin & Hvar & _).
  unfold order_domain_values. destruct (Hcover var Hin) as [d ->]. simpl.
  apply try_values_total; [done..|]. intros value rng0. apply IH.
  - intros p [?| ->]%dict_set_keys; [by apply Hkeys|done..].
  - pose proof (unassigned_shrinks var value a Hin Hvar). lia.
Qed.

(** ** The search finds a satisfying assignment when there is one *)

Lemma all_ok_intro {A} (f : A → outcome bool) (l : list A) :
  (∀ x, x ∈ l → f x = Ok true) → all_ok f l = Ok true.
Proof. apply all_ok_true. Qed.

Lemma consistent_part_of s a :
  well_formed (crossword self) = true →
  satisfying self s → part_of self s a → consistent self a = Ok true.
Proof.
  intros Hwf (_ & (Hdiff & Hlen & Hagree) & _) Hpart.
  unfold consistent.
  assert (all_unique a = true) as ->.
  { apply all_unique_true. intros vA wA vB wB HA HB.
    apply (Hdiff vA wA vB wB); by apply Hpart. }
  assert (lengths_ok a = true) as ->.
  { apply lengths_ok_true. intros v w Hin. by apply Hlen, Hpart. }
  apply all_ok_intro. intros [vA wA] HA. apply all_ok_intro. intros [vB wB] HB.
  destruct (Hpart _ HA) as [HvA HsA], (Hpart _ HB) as [HvB HsB]. simpl in *.
  unfold no_conflict. simpl. case_decide as Hne; [done|].
  destruct (well_formed_total _ _ _ Hwf HvA HvB Hne) as [ov Hov]. rewrite Hov.
  destruct ov as [[pA pB]|]; [|done].
  destruct (Hagree _ _ _ _ _ _ HsA HsB Hne Hov) as (ch & HgA & HgB).
  unfold str_index. rewrite HgA, HgB. simpl. by rewrite bool_decide_eq_true_2.
Qed.

Lemma satisfying_cover s : satisfying self s → domains_cover self.
Proof.
  intros (Hcomplete & _ & Hdom) v Hv.
  apply Hcomplete, list_elem_of_fmap in Hv as ([v' w] & -> & Hin). simpl.
  destruct (Hdom _ _ Hin) as (d & -> & _). by eexists.
Qed.

Lemma part_of_keys s a p :
  part_of self s a → p ∈ a → p.1 ∈ variables (crossword self).
Proof. intros Hpart Hp. by apply Hpart. Qed.

Lemma backtrack_fuel_complete s fuel a rng :
  well_formed (crossword self) = true →
  satisfying self s → part_of self s a →
  length (unassigned self a) < fuel →
  ∃ r a' rng', backtrack_fuel random fuel self a rng = Ok (Some r, a', rng').
Proof.
  intros Hwf Hsat. revert a rng.
  induction fuel as [|fuel IH]; intros a rng Hpart Hfuel; [lia|].
  destruct (backtrack_fuel_total (S fuel) a rng Hwf (satisfying_cover _ Hsat))
    as ([r|] & a' & rng' & Hrun); [by eauto using part_of_keys|done|by eauto|].
  exfalso. simpl in Hrun.
  destruct (assignment_complete self a); [discriminate|]. inv_ok.
  apply select_unassigned_variable_Ok in E as (Hin & Hvar & _).
  unfold order_domain_values in E0.
  destruct (domains self !! v) as [d|] eqn:Hd; [|discriminate].
  injection E0 as <-.
  apply try_values_Ok in Hrun as [(_ & _ & Hall)|(? & ? & ? & [=] & _)]; [|done].
  destruct Hsat as (Hcomplete & Hvalid & Hdom).
  pose proof (Hcomplete v Hin) as ([v' w] & Hv' & Hs)%list_elem_of_fmap.
  simpl in Hv'. subst v'.
  assert (part_of self s (dict_set v w a)) as Hpart'.
  { intros p [?| ->]%dict_set_keys; [by apply Hpart|done..]. }
  destruct (Hall w) as (rng0 & rng1 & Hnone).
  - destruct (Hdom _ _ Hs) as (d' & Hd' & Hw). congruence.
  - by eapply consistent_part_of.
  - destruct (IH (dict_set v w a) rng0 Hpart') as (r & a1 & rng2 & Hsome).
    + pose proof (unassigned_shrinks v w a Hin Hvar). lia.
    + congruence.
Qed.

(** ** The recursion budget of the search is never exhausted *)

Lemma all_ok_fuel {A} (f : A → outcome bool) (l : list A) :
  (∀ x, f x ≠ NoFuel) → all_ok f l ≠ NoFuel.
Proof.
  intros Hf. induction l as [|x l IH]; simpl; [done|].
  specialize (Hf x). destruct (f x) as [[]| |]; done.
Qed.

Lemma no_conflict_fuel c A B : no_conflict c A B ≠ NoFuel.
Proof.
  unfold no_conflict, str_index. case_decide; [done|].
  destruct (overlaps c !! _) as [[[pA pB]|]|]; [|done..].
  destruct (String.get pA A.2); [|done]. by destruct (String.get pB B.2).
Qed.

Lemma consistent_fuel a : consistent self a ≠ NoFuel.
Proof.
  unfold consistent. destruct (all_unique a); [|done].
  destruct (lengths_ok a); [|done].
  apply all_ok_fuel. intros A. apply all_ok_fuel. apply no_conflict_fuel.
Qed.

Lemma try_values_fuel fuel var values a rng :
  var ∉ a.*1 →
  (∀ value rng0,
     backtrack_fuel random fuel self (dict_set var value a) rng0 ≠ NoFuel) →
  try_values (backtrack_fuel random fuel self) self var values a rng ≠ NoFuel.
Proof.
  intros Hvar Hrec. revert rng.
  induction values as [|value values IH]; intros rng; simpl; [done|].
  pose proof (consistent_fuel (dict_set var value a)) as Hc.
  destruct (consistent self (dict_set var value a)) as [[]| |]; [| |done..].
  - simpl. specialize (Hrec value rng).
    destruct (backtrack_fuel random fuel self (dict_set var value a) rng)
      as [[[[r|] a1] rng1]| |] eqn:Hrun; [done| |done..].
    simpl. apply backtrack_fuel_restores in Hrun as ->.
    rewrite dict_pop_set by done. apply IH.
  - apply IH.
Qed.

Lemma backtrack_fuel_enough fuel a rng :
  length (unassigned self a) < fuel →
  backtrack_fuel random fuel self a rng ≠ NoFuel.
Proof.
  revert a rng. induction fuel as [|fuel IH]; intros a rng Hfuel; [lia|].
  simpl. destruct (assignment_complete self a); [done|].
  destruct (select_unassigned_variable random self a rng)
    as [[var rng1]| |] eqn:Hsel; [|done|].
  - simpl. apply select_unassigned_variable_Ok in Hsel as (Hin & Hvar & _).
    unfold order_domain_values. destruct (domains self !! var); [|done].
    simpl. apply try_values_fuel; [done|]. intros value rng0. apply IH.
    pose proof (unassigned_shrinks var value a Hin Hvar). lia.
  - unfold select_unassigned_variable, sample in Hsel.
    by destruct (_ !! _) in Hsel.
Qed.

End SearchFacts.

Lemma ac3_fuel_enough self arcs : ac3 self arcs ≠ NoFuel.
Proof.
  unfold ac3. set (q := match arcs with None => _ | Some l => l end).
  pose proof (ac3_loop_terminates (ac3_fuel self q) self q (le_n _)).
  by destruct (ac3_loop _ _ _).
Qed.

Lemma solve_fuel_enough random self rng : solve random self rng ≠ NoFuel.
Proof.
  unfold solve. apply bind_fuel; [apply enforce_node_consistency_fuel|].
  intros self1. apply bind_fuel; [apply ac3_fuel_enough|].
  intros [ok self2]. apply bind_fuel; [|by intros [[res a'] rng']].
  apply backtrack_fuel_enough. lia.
Qed.

(** ** Slots and domains through the consistency engine *)

Lemma init_domains c v :
  domains (init c) !! v = if decide (v ∈ variables c) then Some (words c) else None.
Proof.
  simpl. case_decide as Hv.
  - apply elem_of_list_to_map_1'.
    + intros w' (v' & [= <- ->] & _)%list_elem_of_fmap. done.
    + apply list_elem_of_fmap. by exists v.
  - apply not_elem_of_list_to_map_1. rewrite <-list_fmap_compose.
    intros (v' & -> & ?)%list_elem_of_fmap. done.
Qed.

Lemma remove_words_dom removeWords D D' v :
  remove_words removeWords D = Ok D' → is_Some (D' !! v) ↔ is_Some (D !! v).
Proof.
  intros H. rewrite (remove_words_lookup _ _ _ H). apply fmap_is_Some.
Qed.

Lemma enforce_node_consistency_Ok self self' :
  enforce_node_consistency self = Ok self' →
  crossword self' = crossword self ∧
  ∀ v, is_Some (domains self' !! v) ↔ is_Some (domains self !! v).
Proof.
  unfold enforce_node_consistency. intros H. inv_ok. split; [done|].
  intros v. simpl. by eapply remove_words_dom.
Qed.

Lemma revise_dom self x y revised self' v :
  revise self x y = Ok (revised, self') →
  is_Some (domains self' !! v) ↔ is_Some (domains self !! v).
Proof.
  intros (_ & removeWords & Hlook & _)%revise_Ok. rewrite Hlook.
  apply fmap_is_Some.
Qed.

Lemma ac3_loop_frame fuel self arcs self' :
  ac3_loop fuel self arcs = Ok self' →
  crossword self' = crossword self ∧
  ∀ v, is_Some (domains self' !! v) ↔ is_Some (domains self !! v).
Proof.
  revert self arcs. induction fuel as [|fuel IH]; intros self arcs Hloop.
  - destruct arcs; [|discriminate]. by injection Hloop as <-.
  - destruct arcs as [|[x y] rest]; [by injection Hloop as <-|].
    cbn [ac3_loop] in Hloop. inv_ok.
    apply ac3_step_Ok in E as (revised & Hrev & _).
    apply IH in Hloop as [Hc Hdom].
    pose proof (revise_Ok _ _ _ _ _ Hrev) as [Hc' _].
    split; [congruence|]. intros v. rewrite Hdom. by eapply revise_dom.
Qed.

Lemma ac3_Ok self arcs ok self' :
  ac3 self arcs = Ok (ok, self') →
  crossword self' = crossword self ∧
  (∀ v, is_Some (domains self' !! v) ↔ is_Some (domains self !! v)) ∧
  ok = no_empty_domain (domains self').
Proof.
  unfold ac3. intros H. inv_ok. apply ac3_loop_frame in E as [? ?]. done.
Qed.

Lemma no_empty_domain_false D :
  no_empty_domain D = false → ∃ v, D !! v = Some [].
Proof.
  unfold no_empty_domain. intros H.
  apply not_true_iff_false in H. rewrite forallb_forall in H.
  destruct (decide (Exists (fun kv => kv.2 = []) (map_to_list D)))
    as [Hex|Hnex].
  - apply Exists_exists in Hex as ([v d] & Hin & Hd). simpl in Hd. subst d.
    exists v. by apply elem_of_map_to_list.
  - exfalso. apply H. intros [v d] Hin%list_elem_of_In. simpl.
    destruct d as [|w d]; [|done]. exfalso. apply Hnex, Exists_exists.
    by exists (v, []).
Qed.

(** ** The random stream only moves forward *)

Lemma try_values_rng rec self var values a rng res a' rng' :
  (∀ a0 rng0 res0 a1 rng1,
     rec a0 rng0 = Ok (res0, a1, rng1) → rng0 ≤ rng1) →
  try_values rec self var values a rng = Ok (res, a', rng') → rng ≤ rng'.
Proof.
  intros Hrec. revert a rng.
  induction values as [|value values IH]; intros a rng; simpl.
  - by intros [= _ _ <-].
  - intros H. inv_ok. destruct r; [|by eapply IH].
    inv_ok. apply Hrec in E0. destruct o as [r|]; inv_ok; [done|].
    apply IH in H. lia.
Qed.

Lemma backtrack_fuel_rng random fuel self a rng res a' rng' :
  backtrack_fuel random fuel self a rng = Ok (res, a', rng') →
  rng ≤ rng' ∧ (assignment_complete self a = false → rng < rng').
Proof.
  revert a rng res a' rng'.
  induction fuel as [|fuel IH]; intros a rng res a' rng'; [discriminate|].
  simpl. destruct (assignment_complete self a).
  - intros [= _ _ <-]. done.
  - intros H. inv_ok.
    apply select_unassigned_variable_Ok in E as (_ & _ & ->).
    apply try_values_rng in H; [lia|].
    intros a0 rng0 res0 a1 rng1 Hrun. by apply IH in Hrun as [? _].
Qed.

(** ** Checking a satisfying assignment with the solver's own tests *)

Lemma satisfying_intro self s :
  assignment_complete self s = true →
  consistent self s = Ok true →
  from_domains self s = true →
  satisfying self s.
Proof.
  intros Hcomplete Hcons Hdom. split_and!.
  - unfold complete. by apply assignment_complete_true.
  - by apply consistent_true.
  - intros v w Hin. unfold from_domains in Hdom. rewrite forallb_forall in Hdom.
    apply list_elem_of_In, Hdom in Hin. simpl in Hin.
    destruct (domains self !! v) as [d|]; [|discriminate].
    apply bool_decide_eq_true in Hin. eauto.
Qed.

(** ** Node consistency leaves words of the right length *)

Lemma enforce_node_consistency_sound self self' v d w :
  enforce_node_consistency self = Ok self' →
  domains self' !! v = Some d → w ∈ d → String.length w = var_length v.
Proof.
  unfold enforce_node_consistency. intros H. inv_ok. simpl.
  rewrite (remove_words_lookup _ _ _ E).
  destruct (domains self !! v) as [d0|] eqn:Hd0; [|discriminate].
  intros [= <-] [Hkept Hw]%list_elem_of_filter.
  destruct (decide (String.length w = var_length v)) as [|Hne]; [done|].
  exfalso. apply Hkept. apply list_elem_of_In, in_flat_map.
  exists (v, d0). split.
  - by apply list_elem_of_In, elem_of_map_to_list.
  - apply list_elem_of_In, list_elem_of_fmap. exists w. split; [done|].
    by apply list_elem_of_filter.
Qed.

(** ** Removing several words of one slot *)

Lemma remove_words_same_slot x l D d :
  D !! x = Some d → NoDup l → l ⊆ d →
  remove_words ((fun w => (x, w)) <$> l) D
    = Ok (<[x := filter (fun w => w ∉ l) d]> D).
Proof.
  revert D d. induction l as [|w l IH]; intros D d Hx Hdup Hsub; simpl.
  - f_equal. symmetry. apply insert_id. rewrite Hx. f_equal.
    clear. induction d as [|w d IHd]; [done|].
    rewrite filter_cons_True by apply not_elem_of_nil. by f_equal.
  - apply NoDup_cons in Hdup as [Hw Hdup].
    unfold domain_remove, set_remove. rewrite Hx.
    rewrite decide_True by (apply Hsub; left). simpl.
    rewrite (IH _ (filter (fun w' => w' ≠ w) d)); [|apply lookup_insert_eq|done|].
    + rewrite insert_insert_eq, list_filter_filter. do 2 f_equal.
      apply list_filter_iff. intros w'. rewrite not_elem_of_cons. tauto.
    + intros w' Hw'. apply list_elem_of_filter. split.
      * intros ->. done.
      * apply Hsub. by right.
Qed.

(** ** Revising against a slot that does not cross *)

Lemma revise_scan_no_overlap self x y dx dy :
  overlaps (crossword self) !! (x, y) = Some None →
  domains self !! y = Some dy →
  revise_scan self x y dx
    = Ok ((fun w => (x, w)) <$> dx, bool_decide (dx ≠ [])).
Proof.
  intros Hov Hy. induction dx as [|wordX dx IH]; simpl; [done|].
  rewrite Hy, (find_pal_no_overlap _ _ _ _ _ Hov). simpl. by rewrite IH.
Qed.

(** Without an overlap between [x] and [y], [revise(x, y)] removes every
    word of [x]'s domain and reports a revision unless the domain was
    empty already. *)
Lemma revise_no_overlap self x y dx dy :
  overlaps (crossword self) !! (x, y) = Some None →
  domains self !! x = Some dx → domains self !! y = Some dy → NoDup dx →
  revise self x y
    = Ok (bool_decide (dx ≠ []), set_domains self (<[x := []]> (domains self))).
Proof.
  intros Hov Hx Hy Hdup. unfold revise. rewrite Hx.
  rewrite (revise_scan_no_overlap _ _ _ _ _ Hov Hy). simpl.
  rewrite (remove_words_same_slot x dx _ dx Hx Hdup) by done. simpl.
  do 3 f_equal. f_equal. apply elem_of_nil_inv.
  intros w [Hnot Hin]%list_elem_of_filter. done.
Qed.

(** ** The consistency engine raises no exception on a well-formed puzzle *)

Lemma remove_words_total removeWords D :
  NoDup removeWords →
  (∀ v w, (v, w) ∈ removeWords → ∃ d, D !! v = Some d ∧ w ∈ d) →
  ∃ D', remove_words removeWords D = Ok D'.
Proof.
  revert D. induction removeWords as [|[v w] rest IH]; intros D Hdup Hin.
  - by eexists.
  - apply NoDup_cons in Hdup as [Hfresh Hdup]. simpl.
    destruct (Hin v w) as (d & Hd & Hw); [left|].
    unfold domain_remove, set_remove. rewrite Hd, decide_True by done. simpl.
    apply IH; [done|]. intros v' w' Hin'.
    destruct (Hin v' w') as (d' & Hd' & Hw'); [by right|].
    destruct (decide (v' = v)) as [->|Hne].
    + rewrite lookup_insert_eq. eexists. split; [done|].
      rewrite Hd in Hd'. injection Hd' as <-.
      apply list_elem_of_filter. split; [|done]. intros ->. done.
    + rewrite lookup_insert_ne by done. eauto.
Qed.

Lemma NoDup_wrong_length v d : NoDup d → NoDup (wrong_length v d).
Proof.
  intros Hdup. unfold wrong_length. apply NoDup_fmap_2.
  - by intros w1 w2 [= ->].
  - by apply NoDup_filter.
Qed.

Lemma NoDup_node_removals (l : list (Var * list word)) :
  NoDup l.*1 → (∀ v d, (v, d) ∈ l → NoDup d) →
  NoDup (flat_map (fun '(variable, d) => wrong_length variable d) l).
Proof.
  induction l as [|[v d] l IH]; intros Hkeys Hdoms; [constructor|].
  rewrite fmap_cons in Hkeys. cbn [flat_map].
  apply NoDup_cons in Hkeys as [Hv Hkeys]. apply NoDup_app. split_and!.
  - apply NoDup_wrong_length, (Hdoms v). left.
  - intros [v' w] (w' & [= -> ->] & _)%list_elem_of_fmap Hin.
    apply list_elem_of_In, in_flat_map in Hin as ([v'' d''] & Hin & Hw).
    apply list_elem_of_In, list_elem_of_fmap in Hw as (w'' & [= <- _] & _).
    apply Hv. apply list_elem_of_fmap. exists (v, d''). split; [done|].
    by apply list_elem_of_In.
  - apply IH; [done|]. intros v' d' ?. apply (Hdoms v'). by right.
Qed.

Lemma enforce_node_consistency_total self :
  (∀ v, is_Some (domains self !! v) ↔ v ∈ variables (crossword self)) →
  (∀ v d, domains self !! v = Some d → NoDup d) →
  ∃ self', enforce_node_consistency self = Ok self' ∧ node_consistent self'.
Proof.
  intros Hdom Hdup. unfold enforce_node_consistency.
  destruct (remove_words_total
              (flat_map (fun '(variable, d) => wrong_length variable d)
                        (map_to_list (domains self))) (domains self))
    as [D' HD'].
  - apply NoDup_node_removals; [apply NoDup_fst_map_to_list|].
    intros v d ?%elem_of_map_to_list. by eapply Hdup.
  - intros v w Hin.
    apply list_elem_of_In, in_flat_map in Hin as ([v' d] & Hin & Hw).
    apply list_elem_of_In, elem_of_map_to_list in Hin.
    apply list_elem_of_In, list_elem_of_fmap in Hw as (w' & [= -> ->] & Hw).
    apply list_elem_of_filter in Hw as [_ Hw]. eauto.
  - pose proof HD' as Hlook. rewrite HD'. simpl. eexists. split; [done|].
    assert (enforce_node_consistency self = Ok (set_domains self D')) as Hrun.
    { unfold enforce_node_consistency. by rewrite HD'. }
    split.
    + intros v. simpl. rewrite (remove_words_dom _ _ _ v Hlook). apply Hdom.
    + intros v d Hd. split; [|intros w; by eapply enforce_node_consistency_sound].
      simpl in Hd. rewrite (remove_words_lookup _ _ _ Hlook) in Hd.
      destruct (domains self !! v) as [d0|] eqn:Hd0; [|discriminate].
      injection Hd as <-. apply NoDup_filter. by eapply Hdup.
Qed.

Lemma find_pal_total c x y wordX dy :
  well_formed c = true → x ∈ variables c → y ∈ variables c → x ≠ y →
  String.length wordX = var_length x →
  (∀ w, w ∈ dy → String.length w = var_length y) →
  ∃ b, find_pal c x y wordX dy = Ok b.
Proof.
  intros Hwf Hx Hy Hne HlenX HlenY.
  destruct (well_formed_total _ _ _ Hwf Hx Hy Hne) as [ov Hov].
  destruct (well_formed_entry _ _ _ _ Hwf Hov) as (_ & _ & _ & Hpos).
  induction dy as [|wordY dy IH]; simpl; [by eexists|]. rewrite Hov.
  assert (∃ b, find_pal c x y wordX dy = Ok b) as Hrest.
  { apply IH. intros w ?. apply HlenY. by right. }
  destruct ov as [[px py]|]; [|done].
  destruct (Hpos px py eq_refl) as [Hpx Hpy].
  destruct (str_index_lt wordX px) as [cx ->]; [lia|].
  destruct (str_index_lt wordY py) as [cy ->].
  { rewrite HlenY; [done|left]. }
  simpl. case_decide; [by eexists|done].
Qed.

Lemma revise_scan_total self x y dx dy :
  (∀ w, ∃ b, w ∈ dx → find_pal (crossword self) x y w dy = Ok b) →
  domains self !! y = Some dy → NoDup dx →
  ∃ removeWords revisionMade,
    revise_scan self x y dx = Ok (removeWords, revisionMade) ∧
    NoDup removeWords.
Proof.
  intros Hpal Hy. induction dx as [|wordX dx IH]; intros Hdup; simpl.
  - do 2 eexists. split; [done|constructor].
  - apply NoDup_cons in Hdup as [Hfresh Hdup]. rewrite Hy.
    destruct (Hpal wordX) as [b Hb]. rewrite Hb by left. simpl.
    destruct IH as (rw & made & Hscan & Hrw); [|done|].
    { intros w. destruct (Hpal w) as [b' Hb']. exists b'. intros ?.
      apply Hb'. by right. }
    rewrite Hscan. simpl. destruct b; do 2 eexists; (split; [done|]); [done|].
    apply NoDup_cons. split; [|done]. intros Hin.
    apply revise_scan_Ok in Hscan as (Hkeys & _).
    by destruct (Hkeys _ Hin) as [_ ?].
Qed.

Lemma revise_total self x y :
  well_formed (crossword self) = true → node_consistent self →
  x ∈ variables (crossword self) → y ∈ variables (crossword self) → x ≠ y →
  ∃ revised self',
    revise self x y = Ok (revised, self') ∧ node_consistent self'.
Proof.
  intros Hwf [Hdom Hsets] Hx Hy Hne. unfold revise.
  destruct (proj2 (Hdom x) Hx) as [dx Hdx], (proj2 (Hdom y) Hy) as [dy Hdy].
  rewrite Hdx. destruct (Hsets _ _ Hdx) as [HdupX HlenX].
  destruct (Hsets _ _ Hdy) as [_ HlenY].
  destruct (revise_scan_total self x y dx dy) as (rw & made & Hscan & Hrw);
    [|done..|].
  { intros w. destruct (decide (w ∈ dx)) as [Hw|Hw].
    - destruct (find_pal_total (crossword self) x y w dy) as [b Hb]; eauto.
    - exists true. done. }
  rewrite Hscan. simpl.
  destruct (remove_words_total rw (domains self) Hrw) as [D' HD'].
  { intros v w Hin. apply revise_scan_Ok in Hscan as (Hkeys & _).
    destruct (Hkeys _ Hin) as [Hv Hw]. simpl in *. subst v. eauto. }
  rewrite HD'. simpl. do 2 eexists. split; [done|]. split; simpl.
  - intros v. rewrite (remove_words_dom _ _ _ v HD'). apply Hdom.
  - intros v d Hd. rewrite (remove_words_lookup _ _ _ HD') in Hd.
    destruct (domains self !! v) as [d0|] eqn:Hd0; [|discriminate].
    injection Hd as <-. destruct (Hsets _ _ Hd0) as [Hdup Hlen]. split.
    + by apply NoDup_filter.
    + intros w Hw. apply Hlen. by eapply kept_subseteq.
Qed.

Lemma all_arcs_on_slots c :
  well_formed c = true → arcs_on_slots c (all_arcs c).
Proof.
  intros Hwf x y Hin. unfold all_arcs in Hin.
  apply list_elem_of_fmap in Hin as ([[x' y'] ov] & [= <- <-] & Hin).
  apply list_elem_of_filter in Hin as [_ Hin%elem_of_map_to_list].
  by destruct (well_formed_entry _ _ _ _ Hwf Hin) as (? & ? & ? & _).
Qed.

Lemma ac3_step_total self arcs :
  well_formed (crossword self) = true → node_consistent self →
  arcs_on_slots (crossword self) arcs → arcs ≠ [] →
  ∃ self' arcs',
    ac3_step self arcs = Ok (self', arcs') ∧
    node_consistent self' ∧ arcs_on_slots (crossword self') arcs'.
Proof.
  intros Hwf Hnc Harcs Hne. destruct arcs as [|[x y] rest]; [done|].
  destruct (Harcs x y) as (Hx & Hy & Hxy); [left|].
  destruct (revise_total self x y) as (revised & self' & Hrev & Hnc');
    [done..|].
  unfold ac3_step. rewrite list_remove_head. simpl. rewrite Hrev. simpl.
  pose proof (revise_Ok _ _ _ _ _ Hrev) as [Hc _]. rewrite Hc.
  assert (arcs_on_slots (crossword self) rest) as Hrest.
  { intros x' y' ?. apply Harcs. by right. }
  destruct revised; do 2 eexists; (split; [done|]); (split; [done|]);
    rewrite Hc; [|done].
  intros x' y' [?|Hin]%elem_of_app; [by apply Hrest|].
  apply list_elem_of_fmap in Hin as (z & [= -> ->] & Hz).
  apply neighbors_spec in Hz as (? & ? & _). done.
Qed.

Lemma ac3_loop_no_exception fuel self arcs e :
  well_formed (crossword self) = true → node_consistent self →
  arcs_on_slots (crossword self) arcs →
  ac3_loop fuel self arcs ≠ Raise e.
Proof.
  revert self arcs. induction fuel as [|fuel IH]; intros self arcs Hwf Hnc Harcs.
  - by destruct arcs.
  - destruct arcs as [|a rest]; [done|]. cbn [ac3_loop].
    destruct (ac3_step_total self (a :: rest)) as (s & q & Hstep & Hnc' & Hq);
      [done..|].
    rewrite Hstep. simpl.
    apply ac3_step_decreases in Hstep as [Hc _].
    apply IH; [by rewrite Hc|done..].
Qed.

Lemma ac3_loop_node_consistent fuel self arcs self' :
  well_formed (crossword self) = true → node_consistent self →
  arcs_on_slots (crossword self) arcs →
  ac3_loop fuel self arcs = Ok self' → node_consistent self'.
Proof.
  revert self arcs. induction fuel as [|fuel IH]; intros self arcs Hwf Hnc Harcs.
  - destruct arcs; [by intros [= <-]|discriminate].
  - destruct arcs as [|a rest]; [by intros [= <-]|]. cbn [ac3_loop].
    destruct (ac3_step_total self (a :: rest)) as (s & q & Hstep & Hnc' & Hq);
      [done..|].
    rewrite Hstep. simpl.
    apply ac3_step_decreases in Hstep as [Hc _].
    apply IH; [by rewrite Hc|done..].
Qed.

Lemma ac3_total self :
  well_formed (crossword self) = true → node_consistent self →
  ∃ ok self', ac3 self None = Ok (ok, self') ∧ node_consistent self'.
Proof.
  intros Hwf Hnc. unfold ac3.
  pose proof (all_arcs_on_slots _ Hwf) as Harcs.
  set (arcs := all_arcs (crossword self)) in *.
  pose proof (ac3_loop_terminates (ac3_fuel self arcs) self arcs (le_n _)).
  destruct (ac3_loop (ac3_fuel self arcs) self arcs) as [self'|e|] eqn:Hloop;
    [|by eapply ac3_loop_no_exception in Hloop|done].
  simpl. do 2 eexists. split; [done|].
  by eapply ac3_loop_node_consistent.
Qed.

(** [solve] returns, with an assignment or with [None], on every
    well-formed puzzle whose vocabulary is a set. *)
Lemma solve_total random c rng :
  well_formed c = true → NoDup (words c) →
  ∃ result self' rng', solve random (init c) rng = Ok (result, self', rng').
Proof.
  intros Hwf Hwords. unfold solve.
  destruct (enforce_node_consistency_total (init c)) as (self1 & Hnc & Hnc1).
  { intros v. rewrite init_domains. case_decide; [|by split; [intros []|]].
    split; [done|by eexists]. }
  { intros v d. rewrite init_domains. case_decide; [|discriminate].
    by intros [= <-]. }
  rewrite Hnc. simpl.
  apply enforce_node_consistency_Ok in Hnc as [Hc1 _].
  destruct (ac3_total self1) as (ok & self2 & Hac3 & Hnc2);
    [by rewrite Hc1|done|].
  rewrite Hac3. simpl. apply ac3_Ok in Hac3 as (Hc2 & _ & _).
  destruct (backtrack_fuel_total random self2
              (S (length (unassigned self2 []))) [] rng)
    as (res & a' & rng' & Hrun); [by rewrite Hc2, Hc1| | |lia|].
  - intros v Hv. by apply Hnc2.
  - by intros p ?%elem_of_nil.
  - unfold backtrack. rewrite Hrun. simpl. by do 3 eexists.
Qed.

(** * The claims of the specification *)

(** C1.  If [solve] returns an assignment, that assignment gives a word to
    every slot of the puzzle, the words of different slots are different,
    every word has the length of its slot, and at every overlap
    [(posA, posB)] of two assigned slots the letters [wordA[posA]] and
    [wordB[posB]] exist and are equal. *)
Theorem solve_returns_valid_assignment random self rng result self' rng' :
  solve random self rng = Ok (Some result, self', rng') →
  complete (crossword self) result ∧
  all_different result ∧
  lengths_match result ∧
  overlaps_agree (crossword self) result.
Proof.
  unfold solve, backtrack. intros H. inv_ok.
  apply enforce_node_consistency_Ok in E as [Hc1 _].
  apply ac3_Ok in E0 as (Hc2 & _ & _).
  apply backtrack_fuel_Some in E1 as (_ & Hcomplete & Hvalid & _).
  destruct (Hvalid (valid_nil _)) as (? & ? & ?).
  rewrite Hc2, Hc1 in *. done.
Qed.

Lemma solve_returns_valid_assignment_witness :
  complete Examples.cat_ace [(Examples.A, "CAT"); (Examples.B, "ACE")] ∧
  all_different [(Examples.A, "CAT"); (Examples.B, "ACE")] ∧
  lengths_match [(Examples.A, "CAT"); (Examples.B, "ACE")] ∧
  overlaps_agree Examples.cat_ace [(Examples.A, "CAT"); (Examples.B, "ACE")].
Proof.
  apply (solve_returns_valid_assignment Examples.first_draw
           (init Examples.cat_ace) 0 _
           (Examples.with_domains Examples.cat_ace ["CAT"; "ACE"]
              Examples.B ["CAT"; "ACE"]) 2).
  vm_compute. reflexivity.
Defined.

(** C2.  On a well-formed puzzle, if after node consistency and AC-3 some
    assignment gives every slot a word of its remaining domain and is
    valid (different words, right lengths, agreeing overlaps), then the
    backtracking search started from the empty assignment returns an
    assignment, complete and valid, whatever slots the random choices
    select. *)
Theorem backtrack_finds_a_solution random self self1 ok self2 s rng :
  well_formed (crossword self) = true →
  enforce_node_consistency self = Ok self1 →
  ac3 self1 None = Ok (ok, self2) →
  satisfying self2 s →
  ∃ result a' rng',
    backtrack random self2 [] rng = Ok (Some result, a', rng') ∧
    complete (crossword self) result ∧ valid (crossword self) result.
Proof.
  intros Hwf [Hc1 _]%enforce_node_consistency_Ok (Hc2 & _ & _)%ac3_Ok Hsat.
  assert (crossword self2 = crossword self) as Hc by by rewrite Hc2, Hc1.
  unfold backtrack.
  destruct (backtrack_fuel_complete random self2 s
              (S (length (unassigned self2 []))) [] rng)
    as (result & a' & rng' & Hrun); [by rewrite Hc|done| |lia|].
  { by intros p ?%elem_of_nil. }
  exists result, a', rng'. split; [done|].
  apply backtrack_fuel_Some in Hrun as (_ & Hcomplete & Hvalid & _).
  rewrite Hc in *. split; [done|]. apply Hvalid, valid_nil.
Qed.

Lemma backtrack_finds_a_solution_witness :
  ∃ result a' rng',
    backtrack Examples.first_draw
      (Examples.with_domains Examples.cat_ace ["CAT"; "ACE"]
         Examples.B ["CAT"; "ACE"]) [] 0
    = Ok (Some result, a', rng') ∧
    complete Examples.cat_ace result ∧ valid Examples.cat_ace result.
Proof.
  apply (backtrack_finds_a_solution Examples.first_draw
           (init Examples.cat_ace)
           (Examples.with_domains Examples.cat_ace ["CAT"; "ACE"]
              Examples.B ["CAT"; "ACE"])
           true
           (Examples.with_domains Examples.cat_ace ["CAT"; "ACE"]
              Examples.B ["CAT"; "ACE"])
           [(Examples.A, "CAT"); (Examples.B, "ACE")] 0).
  - vm_compute. reflexivity.
  - vm_compute. reflexivity.
  - vm_compute. reflexivity.
  - apply satisfying_intro; vm_compute; reflexivity.
Defined.

(** C3, as the code has it.  When AC-3 leaves a domain empty and returns
    [False], [solve] on a well-formed puzzle still runs the backtracking
    search from the empty assignment (it draws at least one random sample)
    and that search returns [None]: the no-solution outcome is the result
    of the search, not of a test of the value returned by [ac3]. *)
Theorem solve_searches_after_failed_ac3 random c self1 self2 rng :
  well_formed c = true →
  enforce_node_consistency (init c) = Ok self1 →
  ac3 self1 None = Ok (false, self2) →
  ∃ rng', solve random (init c) rng = Ok (None, self2, rng') ∧
          backtrack random self2 [] rng = Ok (None, [], rng') ∧
          rng < rng'.
Proof.
  intros Hwf Hnc Hac3. unfold solve. rewrite Hnc. simpl. rewrite Hac3. simpl.
  apply enforce_node_consistency_Ok in Hnc as [Hc1 Hdom1].
  apply ac3_Ok in Hac3 as (Hc2 & Hdom2 & Hempty).
  symmetry in Hempty. apply no_empty_domain_false in Hempty as [v Hv].
  assert (crossword self2 = c) as Hc by by rewrite Hc2, Hc1.
  assert (∀ u, is_Some (domains self2 !! u) ↔ u ∈ variables c) as Hdom.
  { intros u. rewrite Hdom2, Hdom1, init_domains.
    case_decide; split; [done|by eexists|by intros []|done]. }
  assert (v ∈ variables c) as Hin by (apply Hdom; by eexists).
  destruct (backtrack_fuel_total random self2
              (S (length (unassigned self2 []))) [] rng)
    as (res & a' & rng' & Hrun); [by rewrite Hc| |by intros p ?%elem_of_nil|lia|].
  { intros u Hu. apply Hdom. by rewrite <-Hc. }
  unfold backtrack. rewrite Hrun. simpl. destruct res as [r|].
  - exfalso. apply backtrack_fuel_Some in Hrun as (_ & Hcomplete & _ & Hfrom).
    rewrite Hc in Hcomplete.
    pose proof (Hcomplete v Hin) as ([v' w] & Hv' & Hr)%list_elem_of_fmap.
    simpl in Hv'. subst v'.
    destruct (Hfrom _ Hr) as [?%elem_of_nil|(d & Hd & Hw)]; [done|].
    simpl in *. rewrite Hv in Hd. injection Hd as <-. by apply elem_of_nil in Hw.
  - pose proof (backtrack_fuel_restores _ _ _ _ _ _ _ Hrun) as ->.
    apply backtrack_fuel_rng in Hrun as [_ Hlt].
    exists rng'. split_and!; [done..|]. apply Hlt.
    apply not_true_iff_false. rewrite assignment_complete_true, Hc.
    intros Hall. by apply Hall, elem_of_nil in Hin.
Qed.

Lemma solve_searches_after_failed_ac3_witness :
  ∃ rng',
    solve Examples.first_draw (init Examples.dog_cat) 0
      = Ok (None, Examples.with_domains Examples.dog_cat [] Examples.B [], rng') ∧
    backtrack Examples.first_draw
      (Examples.with_domains Examples.dog_cat [] Examples.B []) [] 0
      = Ok (None, [], rng') ∧
    0 < rng'.
Proof.
  apply (solve_searches_after_failed_ac3 Examples.first_draw Examples.dog_cat
           (Examples.with_domains Examples.dog_cat ["DOG"; "CAT"]
              Examples.B ["DOG"; "CAT"])
           (Examples.with_domains Examples.dog_cat [] Examples.B []) 0).
  - vm_compute. reflexivity.
  - vm_compute. reflexivity.
  - vm_compute. reflexivity.
Defined.

(** C3, as the specification states it, fails: with the vocabulary
    [DOG], [CAT] on two crossing slots AC-3 empties both domains and returns
    [False], yet [solve] goes on to search and consumes a random draw,
    unlike the short-circuiting design, which leaves the stream alone. *)
Lemma solve_does_not_skip_the_search :
  enforce_node_consistency (init Examples.dog_cat)
    = Ok (Examples.with_domains Examples.dog_cat ["DOG"; "CAT"]
            Examples.B ["DOG"; "CAT"]) ∧
  ac3 (Examples.with_domains Examples.dog_cat ["DOG"; "CAT"]
         Examples.B ["DOG"; "CAT"]) None
    = Ok (false, Examples.with_domains Examples.dog_cat [] Examples.B []) ∧
  solve Examples.first_draw (init Examples.dog_cat) 0
    = Ok (None, Examples.with_domains Examples.dog_cat [] Examples.B [], 1) ∧
  solve_short_circuit Examples.first_draw (init Examples.dog_cat) 0
    = Ok (None, Examples.with_domains Examples.dog_cat [] Examples.B [], 0) ∧
  solve Examples.first_draw (init Examples.dog_cat) 0
    ≠ solve_short_circuit Examples.first_draw (init Examples.dog_cat) 0.
Proof.
  split_and!; [vm_compute; reflexivity..|].
  vm_compute. intros [=].
Qed.

(** C4, evaluated on the code.  For two slots that do not cross (their
    overlap entry is [None]) [revise] does not leave [x]'s domain alone: the
    inner loop skips every word of [y], no support is ever found, every
    word of [x] is removed and a revision is reported. *)
Theorem revise_without_overlap_empties_domain :
  overlaps Examples.parallel !! (Examples.A, Examples.C) = Some None ∧
  domains (init Examples.parallel) !! Examples.A = Some ["CAT"; "DOG"] ∧
  revise (init Examples.parallel) Examples.A Examples.C
    = Ok (true, Examples.with_domains Examples.parallel []
                  Examples.C ["CAT"; "DOG"]).
Proof. split_and!; vm_compute; reflexivity. Qed.

(** C5.  On a well-formed puzzle, after [ac3] started from the default list
    of arcs has returned [True], every word [w] left in the domain of a
    slot [x] has, for every slot [y] that overlaps [x] at [(posX, posY)], a
    word [w'] in the domain of [y] with [w ≠ w'] and
    [w[posX] == w'[posY]]. *)
Theorem ac3_establishes_arc_consistency self self' x y posX posY dx w :
  well_formed (crossword self) = true →
  ac3 self None = Ok (true, self') →
  overlaps (crossword self) !! (x, y) = Some (Some (posX, posY)) →
  domains self' !! x = Some dx →
  w ∈ dx →
  ∃ dy w' ch, domains self' !! y = Some dy ∧ w' ∈ dy ∧ w ≠ w' ∧
              String.get posX w = Some ch ∧ String.get posY w' = Some ch.
Proof.
  intros Hwf Hac3 Hov Hdx Hw. unfold ac3 in Hac3. inv_ok.
  apply ac3_loop_invariant in E as [Hc Hinv];
    [|by apply well_formed_overlaps_on_slots|apply ac3_invariant_init].
  destruct (Hinv x y (posX, posY)) as [?%elem_of_nil|Hcons];
    [by rewrite Hc|done|].
  destruct (Hcons dx w Hdx Hw) as (dy & w' & Hdy & Hw' & px & py & ch & Hov' & ? & ? & ?).
  rewrite Hc, Hov in Hov'. injection Hov' as <- <-.
  exists dy, w', ch. done.
Qed.

Lemma ac3_establishes_arc_consistency_witness :
  ∃ dy w' ch,
    domains (Examples.with_domains Examples.cat_ace_dog ["CAT"; "ACE"]
               Examples.B ["CAT"; "ACE"]) !! Examples.B = Some dy ∧
    w' ∈ dy ∧ "CAT" ≠ w' ∧
    String.get 1 "CAT" = Some ch ∧ String.get 0 w' = Some ch.
Proof.
  apply (ac3_establishes_arc_consistency
           (Examples.with_domains Examples.cat_ace_dog ["CAT"; "ACE"; "DOG"]
              Examples.B ["CAT"; "ACE"; "DOG"])
           (Examples.with_domains Examples.cat_ace_dog ["CAT"; "ACE"]
              Examples.B ["CAT"; "ACE"])
           Examples.A Examples.B 1 0 ["CAT"; "ACE"] "CAT").
  - vm_compute. reflexivity.
  - vm_compute. reflexivity.
  - vm_compute. reflexivity.
  - vm_compute. reflexivity.
  - apply (bool_decide_unpack _). vm_compute. exact I.
Defined.

(** C6.  A call to [revise] leaves every domain a subset of what it was;
    it either reports no revision and changes nothing, or reports one and
    removes at least one candidate word.  Hence the loop of [ac3] ends:
    run on any queue of arcs with any budget of at least
    [length arcs + |slots| * (number of candidates)] iterations it reaches
    the end of the queue or an exception, and so does [ac3]. *)
Theorem revise_shrinks_and_ac3_terminates self :
  (∀ x y revised self',
     revise self x y = Ok (revised, self') →
     (∀ v d', domains self' !! v = Some d' →
              ∃ d, domains self !! v = Some d ∧ d' ⊆ d) ∧
     (revised = false → self' = self) ∧
     (revised = true →
      total_size (domains self') < total_size (domains self))) ∧
  (∀ arcs, ∃ r, r ≠ NoFuel ∧
     ∀ fuel, ac3_fuel self arcs ≤ fuel → ac3_loop fuel self arcs = r) ∧
  (∀ arcs, ac3 self arcs ≠ NoFuel).
Proof.
  split_and!.
  - intros x y revised self' Hrev. split_and!.
    + intros v d'. by eapply revise_subseteq.
    + intros ->. by eapply revise_no_revision.
    + intros ->. by eapply revise_revision.
  - intros arcs. exists (ac3_loop (ac3_fuel self arcs) self arcs).
    split; [by apply ac3_loop_terminates|].
    intros fuel Hfuel. apply ac3_loop_more_fuel; [|done].
    by apply ac3_loop_terminates.
  - intros arcs. apply ac3_fuel_enough.
Qed.

Lemma revise_shrinks_and_ac3_terminates_witness :
  total_size (domains (Examples.with_domains Examples.cat_ace_dog
                         ["CAT"; "ACE"] Examples.B ["CAT"; "ACE"; "DOG"]))
  < total_size (domains (Examples.with_domains Examples.cat_ace_dog
                           ["CAT"; "ACE"; "DOG"]
                           Examples.B ["CAT"; "ACE"; "DOG"])).
Proof.
  apply (revise_shrinks_and_ac3_terminates
           (Examples.with_domains Examples.cat_ace_dog ["CAT"; "ACE"; "DOG"]
              Examples.B ["CAT"; "ACE"; "DOG"]))
    with (x := Examples.A) (y := Examples.B) (revised := true).
  - vm_compute. reflexivity.
  - reflexivity.
Defined.

(** C7, as the code has it.  When [revise(x, y)] on the dequeued arc
    [(x, y)] reports a revision, the loop appends to the rest of the queue
    exactly one arc [(z, x)] for every neighbour [z] of [x], in the order of
    [neighbors(x)]; a neighbour [y] is not left out, so the arc [(y, x)] is
    enqueued again. *)
Theorem ac3_step_enqueues_every_neighbor self x y rest self' :
  revise self x y = Ok (true, self') →
  ac3_step self ((x, y) :: rest)
    = Ok (self', rest ++ ((fun z => (z, x)) <$> neighbors (crossword self) x)) ∧
  (y ∈ neighbors (crossword self) x →
   (y, x) ∈ (fun z => (z, x)) <$> neighbors (crossword self) x).
Proof.
  intros Hrev. split.
  - unfold ac3_step. rewrite list_remove_head. simpl. rewrite Hrev. simpl.
    by destruct (revise_Ok _ _ _ _ _ Hrev) as [-> _].
  - intros Hy. apply list_elem_of_fmap. by exists y.
Qed.

Lemma ac3_step_enqueues_every_neighbor_witness :
  ac3_step (Examples.with_domains Examples.cat_ace_dog ["CAT"; "ACE"; "DOG"]
              Examples.B ["CAT"; "ACE"; "DOG"])
           [(Examples.A, Examples.B)]
    = Ok (Examples.with_domains Examples.cat_ace_dog ["CAT"; "ACE"]
            Examples.B ["CAT"; "ACE"; "DOG"],
          [] ++ ((fun z => (z, Examples.A)) <$>
                   neighbors Examples.cat_ace_dog Examples.A)) ∧
  (Examples.B ∈ neighbors Examples.cat_ace_dog Examples.A →
   (Examples.B, Examples.A)
     ∈ (fun z => (z, Examples.A)) <$> neighbors Examples.cat_ace_dog Examples.A).
Proof.
  apply (ac3_step_enqueues_every_neighbor
           (Examples.with_domains Examples.cat_ace_dog ["CAT"; "ACE"; "DOG"]
              Examples.B ["CAT"; "ACE"; "DOG"])
           Examples.A Examples.B []).
  vm_compute. reflexivity.
Defined.

(** C7, as the specification states it, fails: on two crossing slots [A]
    and [B], revising [A] against [B] removes [DOG] from [A]'s domain and
    the loop then enqueues [(B, A)], an arc that the specification
    excludes. *)
Lemma ac3_step_reenqueues_the_reverse_arc :
  revise (Examples.with_domains Examples.cat_ace_dog ["CAT"; "ACE"; "DOG"]
            Examples.B ["CAT"; "ACE"; "DOG"]) Examples.A Examples.B
    = Ok (true, Examples.with_domains Examples.cat_ace_dog ["CAT"; "ACE"]
                  Examples.B ["CAT"; "ACE"; "DOG"]) ∧
  ac3_step (Examples.with_domains Examples.cat_ace_dog ["CAT"; "ACE"; "DOG"]
              Examples.B ["CAT"; "ACE"; "DOG"])
           [(Examples.A, Examples.B)]
    = Ok (Examples.with_domains Examples.cat_ace_dog ["CAT"; "ACE"]
            Examples.B ["CAT"; "ACE"; "DOG"],
          [(Examples.B, Examples.A)]) ∧
  arcs_to_recheck_spec Examples.cat_ace_dog Examples.A Examples.B = [] ∧
  [(Examples.B, Examples.A)]
    ≠ [] ++ arcs_to_recheck_spec Examples.cat_ace_dog Examples.A Examples.B.
Proof.
  split_and!; [vm_compute; reflexivity..|]. vm_compute. intros [=].
Qed.

(** C8, evaluated on the code.  [select_unassigned_variable] returns a
    slot drawn at random among the unassigned ones: with [A] holding two
    candidate words and [B] one, a draw selects [A], which does not have the
    fewest remaining candidates. *)
Theorem select_unassigned_variable_ignores_domain_sizes :
  select_unassigned_variable Examples.first_draw Examples.uneven [] 0
    = Ok (Examples.A, 1) ∧
  remaining Examples.uneven Examples.A = 2 ∧
  remaining Examples.uneven Examples.B = 1 ∧
  ¬ mrv_degree_choice Examples.uneven [] Examples.A.
Proof.
  split_and!; [vm_compute; reflexivity..|].
  intros (_ & _ & Hmin).
  destruct (Hmin Examples.B) as [Hle _].
  - apply (bool_decide_unpack _). vm_compute. exact I.
  - apply not_elem_of_nil.
  - vm_compute in Hle. lia.
Qed.

(** C9.  If [backtrack(a)] returns [None], the dictionary [a] holds
    exactly the entries it held when the call was made. *)
Theorem backtrack_failure_restores_assignment random self a rng a' rng' :
  backtrack random self a rng = Ok (None, a', rng') → a' = a.
Proof. apply backtrack_fuel_restores. Qed.

Lemma backtrack_failure_restores_assignment_witness :
  @nil (Var * word) = [].
Proof.
  apply (backtrack_failure_restores_assignment Examples.first_draw
           (Examples.with_domains Examples.cat_ace_dog ["CAT"; "ACE"]
              Examples.B ["DOG"])
           [] 0 [] 3).
  vm_compute. reflexivity.
Defined.

(** C10.  A call [revise(x, y)] changes nothing but [x]'s domain: the
    puzzle (slots, vocabulary, overlap table) is the same afterwards, and
    so is the domain of every slot other than [x] ([y] among them when it
    differs from [x]). *)
Theorem revise_changes_only_the_domain_of_x self x y revised self' :
  revise self x y = Ok (revised, self') →
  crossword self' = crossword self ∧
  ∀ v, v ≠ x → domains self' !! v = domains self !! v.
Proof.
  intros Hrev. split.
  - by destruct (revise_Ok _ _ _ _ _ Hrev) as [-> _].
  - intros v Hv. by eapply revise_other_domains.
Qed.

Lemma revise_changes_only_the_domain_of_x_witness :
  crossword (Examples.with_domains Examples.cat_ace_dog ["CAT"; "ACE"]
               Examples.B ["CAT"; "ACE"; "DOG"])
    = crossword (Examples.with_domains Examples.cat_ace_dog
                   ["CAT"; "ACE"; "DOG"] Examples.B ["CAT"; "ACE"; "DOG"]) ∧
  ∀ v, v ≠ Examples.A →
    domains (Examples.with_domains Examples.cat_ace_dog ["CAT"; "ACE"]
               Examples.B ["CAT"; "ACE"; "DOG"]) !! v
    = domains (Examples.with_domains Examples.cat_ace_dog
                 ["CAT"; "ACE"; "DOG"] Examples.B ["CAT"; "ACE"; "DOG"]) !! v.
Proof.
  apply (revise_changes_only_the_domain_of_x
           (Examples.with_domains Examples.cat_ace_dog ["CAT"; "ACE"; "DOG"]
              Examples.B ["CAT"; "ACE"; "DOG"])
           Examples.A Examples.B true).
  vm_compute. reflexivity.
Defined.

(** * Further properties of the code *)

(** ** Node consistency *)

Lemma filter_ext_elem {A} (P Q : A → Prop)
  `{!∀ x, Decision (P x)} `{!∀ x, Decision (Q x)} (l : list A) :
  (∀ x, x ∈ l → (P x ↔ Q x)) → filter P l = filter Q l.
Proof.
  induction l as [|x l IH]; intros Hext; [done|].
  rewrite !filter_cons.
  destruct (decide (P x)) as [HP|HP], (decide (Q x)) as [HQ|HQ].
  - f_equal. apply IH. intros y ?. apply Hext. by right.
  - exfalso. apply HQ, (Hext x); [left|done].
  - exfalso. apply HP, (Hext x); [left|done].
  - apply IH. intros y ?. apply Hext. by right.
Qed.

Lemma node_removals_spec (D : gmap Var (list word)) v w :
  (v, w) ∈ flat_map (fun '(variable, d) => wrong_length variable d)
                    (map_to_list D)
  ↔ ∃ d, D !! v = Some d ∧ w ∈ d ∧ String.length w ≠ var_length v.
Proof.
  rewrite list_elem_of_In, in_flat_map. split.
  - intros ([v' d] & Hin & Hw).
    apply list_elem_of_In, elem_of_map_to_list in Hin.
    apply list_elem_of_In, list_elem_of_fmap in Hw as (w' & [= -> ->] & Hw).
    apply list_elem_of_filter in Hw as [? ?]. eauto.
  - intros (d & Hd & Hw & Hlen). exists (v, d). split.
    + by apply list_elem_of_In, elem_of_map_to_list.
    + apply list_elem_of_In, list_elem_of_fmap. exists w. split; [done|].
      by apply list_elem_of_filter.
Qed.

Lemma enforce_node_consistency_lookup self self' v :
  enforce_node_consistency self = Ok self' →
  domains self' !! v
  = filter (fun w => String.length w = var_length v) <$> domains self !! v.
Proof.
  unfold enforce_node_consistency. intros H. inv_ok. simpl.
  rewrite (remove_words_lookup _ _ _ E).
  destruct (domains self !! v) as [d|] eqn:Hd; [|done]. simpl. f_equal.
  apply filter_ext_elem. intros w Hw. rewrite node_removals_spec. split.
  - intros Hnot. destruct (decide (String.length w = var_length v)); [done|].
    exfalso. apply Hnot. eauto.
  - intros Hlen (d' & _ & _ & Hne). done.
Qed.

(** X1.  [enforce_node_consistency] leaves the puzzle alone and keeps, in
    every domain, exactly the words whose length is the length of the
    slot, in their order; it gives no slot a domain and takes none away. *)
Theorem enforce_node_consistency_keeps_fitting_words self self' :
  enforce_node_consistency self = Ok self' →
  crossword self' = crossword self ∧
  ∀ v, domains self' !! v
       = filter (fun w => String.length w = var_length v)
           <$> domains self !! v.
Proof.
  intros H. split.
  - by apply enforce_node_consistency_Ok in H as [? _].
  - intros v. by apply enforce_node_consistency_lookup.
Qed.

Lemma enforce_node_consistency_keeps_fitting_words_witness :
  crossword (Examples.with_domains MoreExamples.mixed ["CAT"; "ACE"]
               Examples.B ["CAT"; "ACE"])
    = crossword (init MoreExamples.mixed) ∧
  ∀ v, domains (Examples.with_domains MoreExamples.mixed ["CAT"; "ACE"]
                  Examples.B ["CAT"; "ACE"]) !! v
       = filter (fun w => String.length w = var_length v)
           <$> domains (init MoreExamples.mixed) !! v.
Proof.
  apply (enforce_node_consistency_keeps_fitting_words
           (init MoreExamples.mixed)).
  vm_compute. reflexivity.
Defined.

Lemma node_removals_nil (D : gmap Var (list word)) :
  (∀ v d w, D !! v = Some d → w ∈ d → String.length w = var_length v) →
  flat_map (fun '(variable, d) => wrong_length variable d) (map_to_list D) = [].
Proof.
  intros Hlen. apply elem_of_nil_inv. intros [v w] Hin.
  apply node_removals_spec in Hin as (d & Hd & Hw & Hne).
  apply Hne. by eapply Hlen.
Qed.

(** X2.  Node consistency is idempotent: enforcing it on the state it
    produced removes nothing and returns that same state. *)
Theorem enforce_node_consistency_idempotent self self' :
  enforce_node_consistency self = Ok self' →
  enforce_node_consistency self' = Ok self'.
Proof.
  intros H. unfold enforce_node_consistency.
  rewrite node_removals_nil.
  - simpl. by destruct self'.
  - intros v d w Hd Hw. by eapply enforce_node_consistency_sound.
Qed.

Lemma enforce_node_consistency_idempotent_witness :
  enforce_node_consistency
    (Examples.with_domains MoreExamples.mixed ["CAT"; "ACE"]
       Examples.B ["CAT"; "ACE"])
  = Ok (Examples.with_domains MoreExamples.mixed ["CAT"; "ACE"]
          Examples.B ["CAT"; "ACE"]).
Proof.
  apply (enforce_node_consistency_idempotent (init MoreExamples.mixed)).
  vm_compute. reflexivity.
Defined.

(** X3.  [enforce_node_consistency] raises no exception when every domain
    is a set (no word twice): each [remove] finds its word. *)
Theorem enforce_node_consistency_never_raises self :
  (∀ v d, domains self !! v = Some d → NoDup d) →
  ∃ self', enforce_node_consistency self = Ok self'.
Proof.
  intros Hdup. unfold enforce_node_consistency.
  destruct (remove_words_total
              (flat_map (fun '(variable, d) => wrong_length variable d)
                        (map_to_list (domains self))) (domains self))
    as [D' ->]; [| |by eexists].
  - apply NoDup_node_removals; [apply NoDup_fst_map_to_list|].
    intros v d ?%elem_of_map_to_list. by eapply Hdup.
  - intros v w (d & ? & ? & _)%node_removals_spec. eauto.
Qed.

Lemma domains_are_sets_check (D : gmap Var (list word)) :
  forallb (fun kv => bool_decide (NoDup kv.2)) (map_to_list D) = true →
  ∀ v d, D !! v = Some d → NoDup d.
Proof.
  rewrite forallb_forall. intros H v d Hd.
  apply elem_of_map_to_list, list_elem_of_In, H in Hd.
  by apply bool_decide_eq_true in Hd.
Qed.

Lemma enforce_node_consistency_never_raises_witness :
  ∃ self', enforce_node_consistency (init MoreExamples.mixed) = Ok self'.
Proof.
  apply (enforce_node_consistency_never_raises (init MoreExamples.mixed)).
  apply domains_are_sets_check. vm_compute. reflexivity.
Defined.

(** X4.  A new solver followed by node consistency: when the vocabulary is
    a set the run raises nothing, every slot of the puzzle ends with the
    words of the vocabulary that have its length, in the order of the
    vocabulary, and nothing else has a domain. *)
Theorem init_then_node_consistency c :
  NoDup (words c) →
  ∃ self', enforce_node_consistency (init c) = Ok self' ∧
    crossword self' = c ∧
    ∀ v, domains self' !! v
         = if decide (v ∈ variables c)
           then Some (filter (fun w => String.length w = var_length v)
                             (words c))
           else None.
Proof.
  intros Hwords.
  destruct (remove_words_total
              (flat_map (fun '(variable, d) => wrong_length variable d)
                        (map_to_list (domains (init c)))) (domains (init c)))
    as [D' HD'].
  - apply NoDup_node_removals; [apply NoDup_fst_map_to_list|].
    intros v d Hd%elem_of_map_to_list. rewrite init_domains in Hd.
    case_decide; [|discriminate]. by injection Hd as <-.
  - intros v w (d & ? & ? & _)%node_removals_spec. eauto.
  - assert (enforce_node_consistency (init c) = Ok (set_domains (init c) D'))
      as Hrun.
    { unfold enforce_node_consistency. by rewrite HD'. }
    eexists. split; [exact Hrun|]. split; [done|]. intros v.
    rewrite (enforce_node_consistency_lookup _ _ v Hrun), init_domains.
    by case_decide.
Qed.

Lemma init_then_node_consistency_witness :
  ∃ self', enforce_node_consistency (init MoreExamples.mixed) = Ok self' ∧
    crossword self' = MoreExamples.mixed ∧
    ∀ v, domains self' !! v
         = if decide (v ∈ variables MoreExamples.mixed)
           then Some (filter (fun w => String.length w = var_length v)
                             (words MoreExamples.mixed))
           else None.
Proof.
  apply (init_then_node_consistency MoreExamples.mixed).
  apply (bool_decide_unpack _). vm_compute. exact I.
Defined.

(** ** Revise *)

Lemma find_pal_false c x y wordX dy :
  find_pal c x y wordX dy = Ok false →
  ∀ wordY, wordY ∈ dy → ¬ supports c x y wordX wordY.
Proof.
  induction dy as [|w dy IH]; simpl; [by intros _ wordY ?%elem_of_nil|].
  destruct (overlaps c !! (x, y)) as [[[px py]|]|] eqn:Hov; [| |discriminate].
  - intros H. inv_ok. case_decide as Hpal; [discriminate|].
    intros wordY [->|Hin]%elem_of_cons; [|by apply IH].
    intros (px' & py' & ch & Hov' & Hx & Hy & Hne).
    rewrite Hov in Hov'. injection Hov' as <- <-.
    apply str_index_Ok in E, E0. apply Hpal. split; [congruence|done].
  - intros _ wordY _ (px' & py' & ch & Hov' & _). congruence.
Qed.

Lemma revise_scan_results self x y dx removeWords revisionMade :
  revise_scan self x y dx = Ok (removeWords, revisionMade) →
  ∀ w, w ∈ dx →
    ∃ dy b, domains self !! y = Some dy ∧
            find_pal (crossword self) x y w dy = Ok b ∧
            (b = false ↔ (x, w) ∈ removeWords).
Proof.
  revert removeWords revisionMade.
  induction dx as [|wordX dx IH]; intros removeWords revisionMade; simpl.
  - by intros _ w ?%elem_of_nil.
  - destruct (domains self !! y) as [dy|] eqn:Hy; [|discriminate].
    intros H. inv_ok. pose proof (revise_scan_Ok _ _ _ _ _ _ E0) as [Hin _].
    specialize (IH _ _ E0).
    assert (∀ w b', w ∈ dx → find_pal (crossword self) x y w dy = Ok b' →
                    (b' = false ↔ (x, w) ∈ l)) as Hrest.
    { intros w b' Hw Hb'. destruct (IH w Hw) as (dy' & b'' & [= <-] & Hb'' & Hiff).
      congruence. }
    destruct r; inv_ok.
    + intros w [->|Hw]%elem_of_cons.
      * exists dy, true. split_and!; [done..|]. split; [done|].
        intros Hrem. destruct (Hin _ Hrem) as [_ Hw]. simpl in Hw.
        by apply (Hrest _ true Hw E).
      * destruct (IH w Hw) as (dy' & b' & [= <-] & ? & ?). eauto.
    + intros w [->|Hw]%elem_of_cons.
      * exists dy, false. split_and!; [done..|]. split; [left|done].
      * destruct (IH w Hw) as (dy' & b' & [= <-] & Hb' & Hiff).
        exists dy, b'. split_and!; [done..|]. rewrite Hiff, elem_of_cons.
        split; [by right|]. intros [[= ->]|?]; [|done].
        apply Hiff. congruence.
Qed.

Lemma revise_exact self x y revised self' dx :
  revise self x y = Ok (revised, self') →
  domains self !! x = Some dx →
  ∃ dx', domains self' !! x = Some dx' ∧
    dx' `sublist_of` dx ∧
    (∀ w, w ∈ dx' ↔ w ∈ dx ∧ supported self x y w) ∧
    (revised = true ↔ ∃ w, w ∈ dx ∧ ¬ supported self x y w).
Proof.
  intros Hrev Hdx. unfold revise in Hrev. rewrite Hdx in Hrev. inv_ok.
  rename l into rw. pose proof (revise_scan_results _ _ _ _ _ _ E) as Hres.
  apply revise_scan_Ok in E as (Hin & Hf & Ht & Hsup).
  assert (∀ w, w ∈ dx → ((x, w) ∉ rw ↔ supported self x y w)) as Hiff.
  { intros w Hw. split; [by apply Hsup|].
    intros (dy & w' & Hdy & Hw' & Hs) Hrem.
    destruct (Hres w Hw) as (dy' & b' & Hdy' & Hb' & Hb).
    rewrite Hdy in Hdy'. injection Hdy' as <-.
    apply Hb in Hrem as ->. by eapply find_pal_false. }
  exists (kept rw x dx). split_and!.
  - simpl. by rewrite (remove_words_lookup _ _ _ E0), Hdx.
  - apply sublist_filter.
  - intros w. unfold kept. rewrite list_elem_of_filter. split.
    + intros [Hnot Hw]. split; [done|]. by apply Hiff.
    + intros [Hw Hs]. split; [|done]. by apply Hiff.
  - split.
    + intros Hb. specialize (Ht Hb). destruct rw as [|[v w] rw]; [done|].
      destruct (Hin (v, w)) as [Hv Hw]; [left|]. simpl in *. subst v.
      exists w. split; [done|]. intros Hs. apply (Hiff w Hw) in Hs.
      apply Hs. left.
    + intros (w & Hw & Hs). destruct revised; [done|]. exfalso.
      rewrite (Hf eq_refl) in Hiff. apply Hs, (Hiff w Hw), not_elem_of_nil.
Qed.

(** X5.  A successful [revise(x, y)] keeps, in their order, exactly the
    words of [x]'s domain that have a support in [y]'s domain (a different
    word whose letter at the overlap is the same), and it returns [True]
    exactly when some word had none. *)
Theorem revise_removes_exactly_the_unsupported_words
  self x y revised self' dx :
  revise self x y = Ok (revised, self') →
  domains self !! x = Some dx →
  ∃ dx', domains self' !! x = Some dx' ∧
    dx' `sublist_of` dx ∧
    (∀ w, w ∈ dx' ↔ w ∈ dx ∧ supported self x y w) ∧
    (revised = true ↔ ∃ w, w ∈ dx ∧ ¬ supported self x y w).
Proof. apply revise_exact. Qed.

Lemma revise_removes_exactly_the_unsupported_words_witness :
  ∃ dx',
    domains (Examples.with_domains Examples.cat_ace_dog ["CAT"; "ACE"]
               Examples.B ["CAT"; "ACE"; "DOG"]) !! Examples.A = Some dx' ∧
    dx' `sublist_of` ["CAT"; "ACE"; "DOG"] ∧
    (∀ w, w ∈ dx' ↔
          w ∈ ["CAT"; "ACE"; "DOG"] ∧
          supported (Examples.with_domains Examples.cat_ace_dog
                       ["CAT"; "ACE"; "DOG"] Examples.B ["CAT"; "ACE"; "DOG"])
                    Examples.A Examples.B w) ∧
    (true = true ↔
     ∃ w, w ∈ ["CAT"; "ACE"; "DOG"] ∧
          ¬ supported (Examples.with_domains Examples.cat_ace_dog
                         ["CAT"; "ACE"; "DOG"] Examples.B ["CAT"; "ACE"; "DOG"])
                      Examples.A Examples.B w).
Proof.
  apply (revise_removes_exactly_the_unsupported_words
           (Examples.with_domains Examples.cat_ace_dog ["CAT"; "ACE"; "DOG"]
              Examples.B ["CAT"; "ACE"; "DOG"])
           Examples.A Examples.B true
           (Examples.with_domains Examples.cat_ace_dog ["CAT"; "ACE"]
              Examples.B ["CAT"; "ACE"; "DOG"])).
  - vm_compute. reflexivity.
  - vm_compute. reflexivity.
Defined.

Lemma revise_scan_all_supported self x y l :
  (l = [] ∨ ∃ dy, domains self !! y = Some dy ∧
                  ∀ w, w ∈ l → find_pal (crossword self) x y w dy = Ok true) →
  revise_scan self x y l = Ok ([], false).
Proof.
  intros [->|(dy & Hdy & Hall)]; [done|].
  induction l as [|w l IH]; [done|]. simpl.
  rewrite Hdy, (Hall w) by left. simpl.
  rewrite IH; [done|]. intros w' ?. apply Hall. by right.
Qed.

(** X6.  [revise] is idempotent: repeating [revise(x, y)] on distinct slots
    right after a successful call removes nothing, returns [False] and
    leaves the solver as it is. *)
Theorem revise_again_changes_nothing self x y revised self' :
  revise self x y = Ok (revised, self') → x ≠ y →
  revise self' x y = Ok (false, self').
Proof.
  intros Hrev Hne.
  pose proof (revise_other_domains _ _ _ _ _ y Hrev (not_eq_sym Hne)) as Hy.
  pose proof (revise_Ok _ _ _ _ _ Hrev) as [Hc _].
  unfold revise in Hrev.
  destruct (domains self !! x) as [dx|] eqn:Hdx; [|discriminate]. inv_ok.
  rename l into rw. pose proof (revise_scan_results _ _ _ _ _ _ E) as Hres.
  unfold revise. simpl. rewrite (remove_words_lookup _ _ _ E0), Hdx. simpl.
  rewrite revise_scan_all_supported; [by simpl|].
  destruct (kept rw x dx) as [|w0 l0] eqn:Hkept; [by left|right].
  assert (w0 ∈ dx) as Hw0.
  { apply (kept_subseteq rw x dx). rewrite Hkept. left. }
  destruct (Hres w0 Hw0) as (dy & _ & Hdy & _).
  exists dy. split; [by rewrite Hy|].
  intros w Hw. rewrite <-Hkept in Hw.
  apply list_elem_of_filter in Hw as [Hnot Hw].
  destruct (Hres w Hw) as (dy' & b' & Hdy' & Hb' & Hiff).
  rewrite Hdy in Hdy'. injection Hdy' as <-. simpl.
  destruct b'; [done|]. exfalso. by apply Hnot, Hiff.
Qed.

Lemma revise_again_changes_nothing_witness :
  revise (Examples.with_domains Examples.cat_ace_dog ["CAT"; "ACE"]
            Examples.B ["CAT"; "ACE"; "DOG"]) Examples.A Examples.B
  = Ok (false, Examples.with_domains Examples.cat_ace_dog ["CAT"; "ACE"]
                 Examples.B ["CAT"; "ACE"; "DOG"]).
Proof.
  apply (revise_again_changes_nothing
           (Examples.with_domains Examples.cat_ace_dog ["CAT"; "ACE"; "DOG"]
              Examples.B ["CAT"; "ACE"; "DOG"])
           Examples.A Examples.B true).
  - vm_compute. reflexivity.
  - vm_compute. intros [=].
Defined.

(** ** AC-3 as a whole *)

Lemma revise_sublist self x y revised self' v d' :
  revise self x y = Ok (revised, self') → domains self' !! v = Some d' →
  ∃ d, domains self !! v = Some d ∧ d' `sublist_of` d.
Proof.
  intros (_ & removeWords & Hlook & _)%revise_Ok. rewrite Hlook.
  destruct (domains self !! v) as [d|]; [|discriminate].
  intros [= <-]. exists d. split; [done|apply sublist_filter].
Qed.

Lemma ac3_loop_sublist fuel self arcs self' v d' :
  ac3_loop fuel self arcs = Ok self' → domains self' !! v = Some d' →
  ∃ d, domains self !! v = Some d ∧ d' `sublist_of` d.
Proof.
  revert self arcs. induction fuel as [|fuel IH]; intros self arcs Hloop Hd'.
  - destruct arcs; [|discriminate]. injection Hloop as <-.
    exists d'. split; [done|]. reflexivity.
  - destruct arcs as [|[x y] rest].
    { injection Hloop as <-. exists d'. split; [done|]. reflexivity. }
    cbn [ac3_loop] in Hloop. inv_ok.
    apply ac3_step_Ok in E as (revised & Hrev & _).
    destruct (IH _ _ Hloop Hd') as (d1 & Hd1 & Hsub1).
    destruct (revise_sublist _ _ _ _ _ _ _ Hrev Hd1) as (d & Hd & Hsub).
    exists d. split; [done|]. by etrans.
Qed.

Lemma no_empty_domain_true D :
  no_empty_domain D = true ↔ ∀ v d, D !! v = Some d → d ≠ [].
Proof.
  unfold no_empty_domain. rewrite forallb_forall. split.
  - intros H v d Hd%elem_of_map_to_list%list_elem_of_In%H ->. done.
  - intros H [v d] Hin%list_elem_of_In%elem_of_map_to_list. simpl.
    specialize (H v d Hin). by destruct d.
Qed.

Lemma ac3_sublist self arcs ok self' v d' :
  ac3 self arcs = Ok (ok, self') → domains self' !! v = Some d' →
  ∃ d, domains self !! v = Some d ∧ d' `sublist_of` d.
Proof. unfold ac3. intros H. inv_ok. by eapply ac3_loop_sublist. Qed.

(** X7.  Whatever the queue it starts from, [ac3] leaves the puzzle and the
    set of slots that have a domain as they are, every domain ends as a
    sublist of what it was (words are removed, never added or reordered),
    and the value returned is [True] exactly when no domain is empty at
    the end. *)
Theorem ac3_only_shrinks_domains self arcs ok self' :
  ac3 self arcs = Ok (ok, self') →
  crossword self' = crossword self ∧
  (∀ v, is_Some (domains self' !! v) ↔ is_Some (domains self !! v)) ∧
  (∀ v d', domains self' !! v = Some d' →
           ∃ d, domains self !! v = Some d ∧ d' `sublist_of` d) ∧
  (ok = true ↔ ∀ v d, domains self' !! v = Some d → d ≠ []).
Proof.
  intros H. pose proof (ac3_Ok _ _ _ _ H) as (Hc & Hdom & ->).
  split_and!; [done..| |apply no_empty_domain_true].
  intros v d'. by eapply ac3_sublist.
Qed.

Lemma ac3_only_shrinks_domains_witness :
  crossword (Examples.with_domains Examples.cat_ace_dog ["CAT"; "ACE"]
               Examples.B ["CAT"; "ACE"])
    = crossword (Examples.with_domains Examples.cat_ace_dog
                   ["CAT"; "ACE"; "DOG"] Examples.B ["CAT"; "ACE"; "DOG"]) ∧
  (∀ v, is_Some (domains (Examples.with_domains Examples.cat_ace_dog
                            ["CAT"; "ACE"] Examples.B ["CAT"; "ACE"]) !! v)
        ↔ is_Some (domains (Examples.with_domains Examples.cat_ace_dog
                              ["CAT"; "ACE"; "DOG"]
                              Examples.B ["CAT"; "ACE"; "DOG"]) !! v)) ∧
  (∀ v d', domains (Examples.with_domains Examples.cat_ace_dog
                      ["CAT"; "ACE"] Examples.B ["CAT"; "ACE"]) !! v = Some d' →
           ∃ d, domains (Examples.with_domains Examples.cat_ace_dog
                           ["CAT"; "ACE"; "DOG"]
                           Examples.B ["CAT"; "ACE"; "DOG"]) !! v = Some d ∧
                d' `sublist_of` d) ∧
  (true = true ↔
   ∀ v d, domains (Examples.with_domains Examples.cat_ace_dog
                     ["CAT"; "ACE"] Examples.B ["CAT"; "ACE"]) !! v = Some d →
          d ≠ []).
Proof.
  apply (ac3_only_shrinks_domains
           (Examples.with_domains Examples.cat_ace_dog ["CAT"; "ACE"; "DOG"]
              Examples.B ["CAT"; "ACE"; "DOG"]) None).
  vm_compute. reflexivity.
Defined.

Lemma revise_keeps_satisfying self x y p revised self' s :
  well_formed (crossword self) = true →
  overlaps (crossword self) !! (x, y) = Some (Some p) →
  satisfying self s →
  revise self x y = Ok (revised, self') →
  satisfying self' s.
Proof.
  intros Hwf Hov (Hcomplete & Hvalid & Hdom) Hrev.
  pose proof (revise_Ok _ _ _ _ _ Hrev) as [Hc _]. unfold satisfying.
  rewrite Hc.
  split_and!; [done..|]. intros v w Hin.
  destruct (Hdom v w Hin) as (d & Hd & Hw).
  destruct (decide (v = x)) as [->|Hne].
  - destruct (revise_exact _ _ _ _ _ _ Hrev Hd) as (dx' & Hdx' & _ & Hiff & _).
    exists dx'. split; [done|]. apply Hiff. split; [done|].
    destruct (well_formed_entry _ _ _ _ Hwf Hov) as (_ & Hy & Hxy & _).
    pose proof (Hcomplete y Hy) as ([y' wy] & Hy' & Hs)%list_elem_of_fmap.
    simpl in Hy'. subst y'. destruct (Hdom _ _ Hs) as (dy & Hdy & Hwy).
    exists dy, wy. split_and!; [done..|].
    destruct Hvalid as (Hdiff & _ & Hagree). destruct p as [px py].
    destruct (Hagree _ _ _ _ _ _ Hin Hs Hxy Hov) as (ch & ? & ?).
    exists px, py, ch. split_and!; [done..|]. by eapply Hdiff.
  - exists d. split; [|done].
    by rewrite (revise_other_domains _ _ _ _ _ v Hrev).
Qed.

Lemma ac3_loop_keeps_satisfying fuel self arcs self' s :
  well_formed (crossword self) = true →
  (∀ x y, (x, y) ∈ arcs →
          ∃ p, overlaps (crossword self) !! (x, y) = Some (Some p)) →
  satisfying self s →
  ac3_loop fuel self arcs = Ok self' →
  satisfying self' s.
Proof.
  revert self arcs.
  induction fuel as [|fuel IH]; intros self arcs Hwf Harcs Hsat Hloop.
  - destruct arcs; [|discriminate]. by injection Hloop as <-.
  - destruct arcs as [|[x y] rest]; [by injection Hloop as <-|].
    cbn [ac3_loop] in Hloop. inv_ok.
    apply ac3_step_Ok in E as (revised & Hrev & ->).
    pose proof (revise_Ok _ _ _ _ _ Hrev) as [Hc _].
    destruct (Harcs x y) as [p Hov]; [left|].
    apply (IH _ _) in Hloop; [done|by rewrite Hc| |by eapply revise_keeps_satisfying].
    rewrite Hc. intros x' y' Hin.
    assert ((x', y') ∈ rest ∨
            (x', y') ∈ (fun z => (z, x)) <$> neighbors (crossword self) x)
      as [?|Hnb].
    { destruct revised; [by apply elem_of_app|by left]. }
    + apply Harcs. by right.
    + apply list_elem_of_fmap in Hnb as (z & [= -> ->] & Hz).
      apply neighbors_spec in Hz as (_ & _ & Hz). unfold overlapping in Hz.
      destruct (overlaps (crossword self) !! (z, x)) as [[p'|]|];
        [by eexists|done..].
Qed.

Lemma ac3_keeps_satisfying self ok self' s :
  well_formed (crossword self) = true →
  satisfying self s →
  ac3 self None = Ok (ok, self') →
  satisfying self' s.
Proof.
  intros Hwf Hsat Hac3. unfold ac3 in Hac3. inv_ok.
  eapply ac3_loop_keeps_satisfying; [done| |done..].
  intros x y Hin. unfold all_arcs in Hin.
  apply list_elem_of_fmap in Hin as ([[x' y'] ov] & [= <- <-] & Hin).
  apply list_elem_of_filter in Hin as [Hne Hin%elem_of_map_to_list].
  simpl in Hne. destruct ov as [p|]; [by eexists|done].
Qed.

(** X8.  On a well-formed puzzle AC-3 removes no word of a satisfying
    assignment: an assignment that satisfies the constraints over the
    domains before [ac3] still does over the domains after it, and [ac3]
    then returns [True] (provided only slots of the puzzle have domains). *)
Theorem ac3_keeps_every_satisfying_assignment self ok self' s :
  well_formed (crossword self) = true →
  satisfying self s →
  ac3 self None = Ok (ok, self') →
  satisfying self' s ∧
  ((∀ v, is_Some (domains self !! v) → v ∈ variables (crossword self)) →
   ok = true).
Proof.
  intros Hwf Hsat Hac3.
  pose proof (ac3_Ok _ _ _ _ Hac3) as (Hc & Hdom & ->).
  pose proof (ac3_keeps_satisfying _ _ _ _ Hwf Hsat Hac3) as Hsat'.
  split; [done|]. intros Hslots. apply no_empty_domain_true.
  intros v d Hd ->.
  assert (v ∈ variables (crossword self)) as Hv.
  { apply Hslots, Hdom. by eexists. }
  destruct Hsat' as (Hcomplete & _ & Hfrom). rewrite Hc in Hcomplete.
  pose proof (Hcomplete v Hv) as ([v' w] & Hv' & Hs)%list_elem_of_fmap.
  simpl in Hv'. subst v'. destruct (Hfrom _ _ Hs) as (d' & Hd' & Hw).
  rewrite Hd in Hd'. injection Hd' as <-. by apply elem_of_nil in Hw.
Qed.

Lemma ac3_keeps_every_satisfying_assignment_witness :
  satisfying (Examples.with_domains Examples.cat_ace_dog ["CAT"; "ACE"]
                Examples.B ["CAT"; "ACE"])
             [(Examples.A, "CAT"); (Examples.B, "ACE")] ∧
  ((∀ v, is_Some (domains (Examples.with_domains Examples.cat_ace_dog
                             ["CAT"; "ACE"; "DOG"]
                             Examples.B ["CAT"; "ACE"; "DOG"]) !! v) →
         v ∈ variables (crossword (Examples.with_domains Examples.cat_ace_dog
                                     ["CAT"; "ACE"; "DOG"]
                                     Examples.B ["CAT"; "ACE"; "DOG"]))) →
   true = true).
Proof.
  apply (ac3_keeps_every_satisfying_assignment
           (Examples.with_domains Examples.cat_ace_dog ["CAT"; "ACE"; "DOG"]
              Examples.B ["CAT"; "ACE"; "DOG"])).
  - vm_compute. reflexivity.
  - apply satisfying_intro; vm_compute; reflexivity.
  - vm_compute. reflexivity.
Defined.

Lemma node_consistent_check_true self :
  node_consistent_check self = true → node_consistent self.
Proof.
  unfold node_consistent_check. intros [Hall Hdoms]%andb_true_iff.
  rewrite forallb_forall in Hall. rewrite forallb_forall in Hdoms.
  assert (∀ v d, domains self !! v = Some d →
                 v ∈ variables (crossword self) ∧ NoDup d ∧
                 ∀ w, w ∈ d → String.length w = var_length v) as Hentry.
  { intros v d Hd%elem_of_map_to_list%list_elem_of_In%Hdoms. simpl in Hd.
    apply andb_true_iff in Hd as [Hd Hlen].
    apply andb_true_iff in Hd as [Hv Hdup].
    apply bool_decide_eq_true in Hv, Hdup. split_and!; [done..|].
    intros w Hw%list_elem_of_In. rewrite forallb_forall in Hlen.
    by apply Hlen, bool_decide_eq_true in Hw. }
  split.
  - intros v. split.
    + intros [d Hd]. by destruct (Hentry v d Hd).
    + intros Hv%list_elem_of_In%Hall. by apply bool_decide_eq_true in Hv.
  - intros v d Hd. by destruct (Hentry v d Hd) as (_ & ? & ?).
Qed.

(** X9.  On a well-formed puzzle whose domains are node consistent (a
    domain for every slot and for slots only, each a set of words of the
    slot's length) [ac3] raises no exception (no missing key, no index out
    of range) and the domains it leaves are node consistent again. *)
Theorem ac3_never_raises self :
  well_formed (crossword self) = true →
  node_consistent self →
  ∃ ok self', ac3 self None = Ok (ok, self') ∧ node_consistent self'.
Proof. apply ac3_total. Qed.

Lemma ac3_never_raises_witness :
  ∃ ok self',
    ac3 (Examples.with_domains Examples.cat_ace_dog ["CAT"; "ACE"; "DOG"]
           Examples.B ["CAT"; "ACE"; "DOG"]) None = Ok (ok, self') ∧
    node_consistent self'.
Proof.
  apply (ac3_never_raises
           (Examples.with_domains Examples.cat_ace_dog ["CAT"; "ACE"; "DOG"]
              Examples.B ["CAT"; "ACE"; "DOG"])).
  - vm_compute. reflexivity.
  - apply node_consistent_check_true. vm_compute. reflexivity.
Defined.

Lemma ac3_loop_fixpoint fuel self arcs :
  (∀ x y, (x, y) ∈ arcs → revise self x y = Ok (false, self)) →
  length arcs ≤ fuel → ac3_loop fuel self arcs = Ok self.
Proof.
  revert fuel. induction arcs as [|[x y] rest IH]; intros fuel Hrev Hfuel.
  - by destruct fuel.
  - destruct fuel as [|fuel]; [simpl in Hfuel; lia|]. cbn [ac3_loop].
    unfold ac3_step. rewrite list_remove_head. simpl.
    rewrite (Hrev x y) by left. simpl. apply IH.
    + intros x' y' ?. apply Hrev. by right.
    + simpl in Hfuel. lia.
Qed.

(** X10.  AC-3 reaches a fixed point: on a well-formed puzzle with node
    consistent domains, running [ac3] again on the state a first run left
    revises nothing and returns the same value and the same state. *)
Theorem ac3_again_changes_nothing self ok self' :
  well_formed (crossword self) = true →
  node_consistent self →
  ac3 self None = Ok (ok, self') →
  ac3 self' None = Ok (ok, self').
Proof.
  intros Hwf Hnc Hac3.
  pose proof (ac3_Ok _ _ _ _ Hac3) as (Hc & _ & ->).
  unfold ac3 in Hac3. inv_ok.
  pose proof (all_arcs_on_slots _ Hwf) as Harcs.
  pose proof (ac3_loop_node_consistent _ _ _ _ Hwf Hnc Harcs E) as Hnc'.
  apply ac3_loop_invariant in E as [_ Hinv];
    [|by apply well_formed_overlaps_on_slots|apply ac3_invariant_init].
  unfold ac3. rewrite ac3_loop_fixpoint; [done| |unfold ac3_fuel; lia].
  rewrite Hc. intros x y Hin.
  destruct (Harcs x y Hin) as (Hx & Hy & Hxy).
  destruct (revise_total self' x y) as (revised & s & Hrev & _);
    [by rewrite Hc|done|by rewrite Hc..|done|].
  destruct revised; [exfalso|by rewrite (revise_no_revision _ _ _ _ Hrev) in Hrev].
  destruct Hnc' as [Hdom _]. destruct (proj2 (Hdom x)) as [dx Hdx];
    [by rewrite Hc|].
  destruct (revise_exact _ _ _ _ _ _ Hrev Hdx) as (_ & _ & _ & _ & Hsome).
  destruct (proj1 Hsome eq_refl) as (w & Hw & Hns). apply Hns.
  unfold all_arcs in Hin.
  apply list_elem_of_fmap in Hin as ([[x' y'] ov] & [= <- <-] & Hin).
  apply list_elem_of_filter in Hin as [Hov Hin%elem_of_map_to_list].
  simpl in Hov. destruct ov as [p|]; [|done].
  destruct (Hinv x y p) as [?%elem_of_nil|Hcons]; [by rewrite Hc|done|].
  by apply (Hcons dx w).
Qed.

Lemma ac3_again_changes_nothing_witness :
  ac3 (Examples.with_domains Examples.cat_ace_dog ["CAT"; "ACE"]
         Examples.B ["CAT"; "ACE"]) None
  = Ok (true, Examples.with_domains Examples.cat_ace_dog ["CAT"; "ACE"]
                Examples.B ["CAT"; "ACE"]).
Proof.
  apply (ac3_again_changes_nothing
           (Examples.with_domains Examples.cat_ace_dog ["CAT"; "ACE"; "DOG"]
              Examples.B ["CAT"; "ACE"; "DOG"])).
  - vm_compute. reflexivity.
  - apply node_consistent_check_true. vm_compute. reflexivity.
  - vm_compute. reflexivity.
Defined.

(** ** The consistency check *)

Lemma consistent_of_valid self a :
  well_formed (crossword self) = true →
  (∀ p, p ∈ a → p.1 ∈ variables (crossword self)) →
  valid (crossword self) a → consistent self a = Ok true.
Proof.
  intros Hwf Hkeys (Hdiff & Hlen & Hagree). unfold consistent.
  rewrite (proj2 (all_unique_true a) Hdiff), (proj2 (lengths_ok_true a) Hlen).
  apply all_ok_intro. intros [vA wA] HA. apply all_ok_intro. intros [vB wB] HB.
  unfold no_conflict. simpl. case_decide as Hne; [done|].
  destruct (well_formed_total (crossword self) vA vB) as [ov Hov];
    [done|by apply (Hkeys _ HA)|by apply (Hkeys _ HB)|done|].
  rewrite Hov. destruct ov as [[pA pB]|]; [|done].
  destruct (Hagree _ _ _ _ _ _ HA HB Hne Hov) as (ch & HgA & HgB).
  unfold str_index. rewrite HgA, HgB. simpl. by rewrite bool_decide_eq_true_2.
Qed.

(** X11.  On a well-formed puzzle [consistent] decides validity: for an
    assignment whose keys are slots of the puzzle it raises no exception,
    and it returns [True] exactly when the words of different slots differ,
    every word has the length of its slot and the letters agree at every
    overlap. *)
Theorem consistent_decides_validity self a :
  well_formed (crossword self) = true →
  (∀ p, p ∈ a → p.1 ∈ variables (crossword self)) →
  ∃ b, consistent self a = Ok b ∧ (b = true ↔ valid (crossword self) a).
Proof.
  intros Hwf Hkeys. destruct (consistent_total self a Hwf Hkeys) as [b Hb].
  exists b. split; [done|]. split.
  - intros ->. by apply consistent_true.
  - intros Hvalid. rewrite (consistent_of_valid self a) in Hb by done.
    by injection Hb.
Qed.

Lemma consistent_decides_validity_witness :
  ∃ b, consistent (init Examples.cat_ace)
         [(Examples.A, "CAT"); (Examples.B, "CAT")] = Ok b ∧
       (b = true ↔
        valid (crossword (init Examples.cat_ace))
              [(Examples.A, "CAT"); (Examples.B, "CAT")]).
Proof.
  apply (consistent_decides_validity (init Examples.cat_ace)
           [(Examples.A, "CAT"); (Examples.B, "CAT")]).
  - vm_compute. reflexivity.
  - apply Forall_forall. repeat constructor.
Defined.

(** X12.  Consistency is inherited by parts: when [consistent] accepts an
    assignment it accepts, without raising, every assignment made of some
    of its entries. *)
Theorem consistent_on_fewer_entries self a a' :
  consistent self a' = Ok true →
  (∀ p, p ∈ a → p ∈ a') →
  consistent self a = Ok true.
Proof.
  unfold consistent. intros H Hsub.
  destruct (all_unique a') eqn:Hu; [|discriminate].
  destruct (lengths_ok a') eqn:Hl; [|discriminate].
  apply all_unique_true in Hu. apply lengths_ok_true in Hl.
  rewrite all_ok_true in H.
  assert (all_unique a = true) as ->.
  { apply all_unique_true. intros vA wA vB wB HA HB.
    apply Hu; by apply Hsub. }
  assert (lengths_ok a = true) as ->.
  { apply lengths_ok_true. intros v w Hin. by apply Hl, Hsub. }
  apply all_ok_intro. intros A HA. apply all_ok_intro. intros B HB.
  specialize (H A (Hsub _ HA)). rewrite all_ok_true in H.
  by apply H, Hsub.
Qed.

Lemma consistent_on_fewer_entries_witness :
  consistent (init Examples.cat_ace) [(Examples.B, "ACE")] = Ok true.
Proof.
  apply (consistent_on_fewer_entries (init Examples.cat_ace)
           [(Examples.B, "ACE")]
           [(Examples.A, "CAT"); (Examples.B, "ACE")]).
  - vm_compute. reflexivity.
  - intros p ->%list_elem_of_singleton. apply (bool_decide_unpack _).
    vm_compute. exact I.
Defined.

(** ** Choosing a slot *)

(** X13.  [select_unassigned_variable] on a complete assignment raises
    [ValueError] (the sample is drawn from an empty population); on any
    other assignment it returns a slot of the puzzle that is not a key of
    the assignment and consumes exactly one random draw. *)
Theorem select_unassigned_variable_returns_an_unassigned_slot
  random self a rng :
  (assignment_complete self a = true ∧
   select_unassigned_variable random self a rng = Raise ValueError)
  ∨ (assignment_complete self a = false ∧
     ∃ var, select_unassigned_variable random self a rng = Ok (var, S rng) ∧
            var ∈ variables (crossword self) ∧ var ∉ a.*1).
Proof.
  destruct (assignment_complete self a) eqn:Hc; [left|right]; (split; [done|]).
  - unfold select_unassigned_variable, sample.
    assert (unassigned self a = []) as ->; [|done].
    apply elem_of_nil_inv. intros v [Hnot Hv]%list_elem_of_filter.
    by apply Hnot, (assignment_complete_true self a).
  - destruct (sample_total random (unassigned self a) rng) as [var Hsel];
      [by apply unassigned_nonempty|].
    exists var. split; [done|].
    by apply select_unassigned_variable_Ok in Hsel as (? & ? & _).
Qed.

(** ** The search *)

Lemma backtrack_fuel_extends random fuel self a rng r a' rng' :
  backtrack_fuel random fuel self a rng = Ok (Some r, a', rng') →
  ∃ new, r = a ++ new ∧ NoDup new.*1 ∧
    ∀ v w, (v, w) ∈ new →
      v ∈ variables (crossword self) ∧ (v ∉ a.*1) ∧
      ∃ d, domains self !! v = Some d ∧ w ∈ d.
Proof.
  revert a rng r a' rng'. induction fuel as [|fuel IH]; intros a rng r a' rng'.
  - discriminate.
  - simpl. destruct (assignment_complete self a) eqn:Hcomplete.
    + intros [= <- <- <-]. exists []. rewrite app_nil_r.
      split_and!; [done|constructor|]. by intros v w ?%elem_of_nil.
    + intros H. inv_ok.
      apply select_unassigned_variable_Ok in E as (Hin & Hvar & _).
      unfold order_domain_values in E0.
      destruct (domains self !! v) as [d|] eqn:Hd; [|discriminate].
      injection E0 as <-.
      apply try_values_Ok in H
        as [(? & _)|(r' & value & rng0 & [= <-] & Hvalue & _ & Hrec)];
        [done| |done].
      apply IH in Hrec as (new & -> & Hdup & Hnew).
      rewrite dict_set_fresh by done.
      exists ((v, value) :: new). rewrite <-app_assoc. split_and!; [done| |].
      * rewrite fmap_cons. apply NoDup_cons. split; [|done].
        intros ([v' w] & Hv' & Hin')%list_elem_of_fmap. simpl in Hv'. subst v'.
        destruct (Hnew _ _ Hin') as (_ & Hnot & _). apply Hnot.
        rewrite dict_set_fresh, fmap_app by done. apply elem_of_app. right.
        left.
      * intros v' w [[= -> ->]|Hin']%elem_of_cons; [by eauto|].
        destruct (Hnew _ _ Hin') as (? & Hnot & ?). split_and!; [done| |done].
        intros ?. apply Hnot. rewrite dict_set_fresh, fmap_app by done.
        apply elem_of_app. by left.
Qed.

(** X14.  When [backtrack(a)] returns an assignment, it is the dictionary
    [a] itself, extended: the entries [a] had on entry are still its first
    entries, unchanged, and each entry added after them gives a slot of
    the puzzle that [a] did not assign, once, a word of that slot's
    domain. *)
Theorem backtrack_extends_the_assignment random self a rng result a' rng' :
  backtrack random self a rng = Ok (Some result, a', rng') →
  a' = result ∧
  ∃ new, result = a ++ new ∧ NoDup new.*1 ∧
    ∀ v w, (v, w) ∈ new →
      v ∈ variables (crossword self) ∧ (v ∉ a.*1) ∧
      ∃ d, domains self !! v = Some d ∧ w ∈ d.
Proof.
  unfold backtrack. intros H. split.
  - by apply backtrack_fuel_Some in H as [-> _].
  - by eapply backtrack_fuel_extends.
Qed.

Lemma backtrack_extends_the_assignment_witness :
  [(Examples.A, "CAT"); (Examples.B, "ACE")]
    = [(Examples.A, "CAT"); (Examples.B, "ACE")] ∧
  ∃ new,
    [(Examples.A, "CAT"); (Examples.B, "ACE")] = [(Examples.A, "CAT")] ++ new ∧
    NoDup new.*1 ∧
    ∀ v w, (v, w) ∈ new →
      v ∈ variables (crossword
                       (Examples.with_domains Examples.cat_ace ["CAT"; "ACE"]
                          Examples.B ["CAT"; "ACE"])) ∧
      (v ∉ [(Examples.A, "CAT")].*1) ∧
      ∃ d, domains (Examples.with_domains Examples.cat_ace ["CAT"; "ACE"]
                      Examples.B ["CAT"; "ACE"]) !! v = Some d ∧ w ∈ d.
Proof.
  apply (backtrack_extends_the_assignment Examples.first_draw
           (Examples.with_domains Examples.cat_ace ["CAT"; "ACE"]
              Examples.B ["CAT"; "ACE"])
           [(Examples.A, "CAT")] 0 _ _ 1).
  vm_compute. reflexivity.
Defined.

(** ** Solving a puzzle *)

Lemma solve_outcome random c rng :
  well_formed c = true → NoDup (words c) →
  ∃ result self' rng',
    solve random (init c) rng = Ok (result, self', rng') ∧
    match result with
    | Some r => solution c r ∧ NoDup r.*1
    | None => ∀ s, ¬ solution c s
    end.
Proof.
  intros Hwf Hwords. unfold solve.
  destruct (enforce_node_consistency_total (init c)) as (self1 & Hnc & Hnc1).
  { intros v. rewrite init_domains. case_decide; [|by split; [intros []|]].
    split; [done|by eexists]. }
  { intros v d. rewrite init_domains. case_decide; [|discriminate].
    by intros [= <-]. }
  rewrite Hnc. simpl.
  pose proof (fun v => enforce_node_consistency_lookup _ _ v Hnc) as Hlook1.
  apply enforce_node_consistency_Ok in Hnc as [Hc1 _]. simpl in Hc1.
  destruct (ac3_total self1) as (ok & self2 & Hac3 & Hnc2);
    [by rewrite Hc1|done|].
  rewrite Hac3. simpl.
  pose proof (ac3_Ok _ _ _ _ Hac3) as (Hc2 & _ & _).
  assert (crossword self2 = c) as Hc by congruence.
  destruct (backtrack_fuel_total random self2
              (S (length (unassigned self2 []))) [] rng)
    as (res & a' & rng' & Hrun); [by rewrite Hc| | |lia|].
  { intros v Hv. by apply Hnc2. }
  { by intros p ?%elem_of_nil. }
  unfold backtrack. rewrite Hrun. simpl.
  exists res, self2, rng'. split; [done|]. destruct res as [r|].
  - pose proof (backtrack_fuel_Some _ _ _ _ _ _ _ _ Hrun)
      as (_ & Hcomplete & Hvalid & _).
    apply backtrack_fuel_extends in Hrun as (new & -> & Hdup & Hnew).
    rewrite Hc in Hcomplete, Hvalid, Hnew. rewrite app_nil_l in *.
    split; [|done]. split_and!; [done|apply Hvalid, valid_nil|].
    intros v w Hin. destruct (Hnew _ _ Hin) as (Hv & _ & d2 & Hd2 & Hw).
    split; [done|].
    destruct (ac3_sublist _ _ _ _ _ _ Hac3 Hd2) as (d1 & Hd1 & Hsub).
    rewrite Hlook1, init_domains in Hd1. rewrite decide_True in Hd1 by done.
    injection Hd1 as <-. apply (elem_of_sublist _ _ _ Hw) in Hsub.
    by apply list_elem_of_filter in Hsub as [_ ?].
  - intros s (Hcomplete & Hvalid & Hwordsof).
    assert (satisfying self1 s) as Hsat1.
    { unfold satisfying. rewrite Hc1. split_and!; [done..|]. intros v w Hin.
      destruct (Hwordsof _ _ Hin) as [Hv Hw].
      rewrite Hlook1, init_domains. rewrite decide_True by done. eexists.
      split; [done|]. apply list_elem_of_filter. split; [|done].
      destruct Hvalid as (_ & Hlen & _). by apply Hlen. }
    pose proof (ac3_keeps_satisfying self1 ok self2 s) as Hsat2.
    destruct (backtrack_fuel_complete random self2 s
                (S (length (unassigned self2 []))) [] rng)
      as (r & a1 & rng1 & Hsome); [by rewrite Hc| | |lia|congruence].
    + apply Hsat2; [by rewrite Hc1|done..].
    + by intros p ?%elem_of_nil.
Qed.

(** X15.  [solve] decides the puzzle.  On a well-formed puzzle whose
    vocabulary is a set it raises no exception, whatever the random
    choices; when it returns an assignment, that assignment is a solution
    (a word of the vocabulary for every slot and for slots only, different
    words, right lengths, agreeing overlaps) with every slot assigned once;
    when it returns [None], the puzzle has no solution. *)
Theorem solve_decides_the_puzzle random c rng :
  well_formed c = true → NoDup (words c) →
  ∃ result self' rng',
    solve random (init c) rng = Ok (result, self', rng') ∧
    match result with
    | Some r => solution c r ∧ NoDup r.*1
    | None => ∀ s, ¬ solution c s
    end.
Proof. apply solve_outcome. Qed.

Lemma solve_decides_the_puzzle_witness :
  ∃ result self' rng',
    solve Examples.first_draw (init Examples.cat_ace) 0
      = Ok (result, self', rng') ∧
    match result with
    | Some r => solution Examples.cat_ace r ∧ NoDup r.*1
    | None => ∀ s, ¬ solution Examples.cat_ace s
    end.
Proof.
  apply (solve_decides_the_puzzle Examples.first_draw Examples.cat_ace 0).
  - vm_compute. reflexivity.
  - apply (bool_decide_unpack _). vm_compute. exact I.
Defined.

(** X16.  When no word of the vocabulary has the length of some slot,
    [solve] returns [None]. *)
Theorem solve_fails_when_no_word_fits random c rng v :
  well_formed c = true → NoDup (words c) →
  v ∈ variables c →
  (∀ w, w ∈ words c → String.length w ≠ var_length v) →
  ∃ self' rng', solve random (init c) rng = Ok (None, self', rng').
Proof.
  intros Hwf Hwords Hv Hnone.
  destruct (solve_outcome random c rng Hwf Hwords)
    as ([r|] & self' & rng' & Hrun & Hres); [|by eauto].
  exfalso. destruct Hres as [(Hcomplete & (_ & Hlen & _) & Hfrom) _].
  pose proof (Hcomplete v Hv) as ([v' w] & Hv' & Hin)%list_elem_of_fmap.
  simpl in Hv'. subst v'. destruct (Hfrom _ _ Hin) as [_ Hw].
  by apply (Hnone w Hw), Hlen.
Qed.

Lemma solve_fails_when_no_word_fits_witness :
  ∃ self' rng',
    solve Examples.first_draw (init MoreExamples.misfit) 0
      = Ok (None, self', rng').
Proof.
  apply (solve_fails_when_no_word_fits Examples.first_draw
           MoreExamples.misfit 0 Examples.A).
  - vm_compute. reflexivity.
  - apply (bool_decide_unpack _). vm_compute. exact I.
  - apply (bool_decide_unpack _). vm_compute. exact I.
  - apply Forall_forall. unfold MoreExamples.misfit. simpl.
    repeat (apply List.Forall_cons; [by vm_compute|]). apply List.Forall_nil.
Defined.

(** ** The letter grid *)

Lemma grid_set_in_range height width letters i j ch :
  has_shape height width letters → i < height → j < width →
  ∃ letters',
    grid_set letters i j ch = Ok letters' ∧
    has_shape height width letters' ∧
    ∀ i' j', grid_get letters' i' j'
             = if decide ((i', j') = (i, j)) then Some (Some ch)
               else grid_get letters i' j'.
Proof.
  intros [Hlen Hrows] Hi Hj. unfold grid_set.
  destruct (lookup_lt_is_Some_2 letters i) as [row Hrow]; [lia|].
  rewrite Hrow. assert (length row = width) as Hw.
  { apply Hrows. by eapply list_elem_of_lookup_2. }
  rewrite decide_True by lia. eexists. split; [done|]. split.
  - split; [by rewrite length_insert|].
    intros row' [k Hk]%list_elem_of_lookup.
    destruct (decide (k = i)) as [->|Hne].
    + rewrite list_lookup_insert_eq in Hk by lia. injection Hk as <-.
      by rewrite length_insert.
    + rewrite list_lookup_insert_ne in Hk by done.
      apply Hrows. by eapply list_elem_of_lookup_2.
  - intros i' j'. unfold grid_get. case_decide as Hc.
    + injection Hc as -> ->. rewrite list_lookup_insert_eq by lia. simpl.
      by rewrite list_lookup_insert_eq by lia.
    + destruct (decide (i' = i)) as [->|Hne].
      * rewrite list_lookup_insert_eq by lia. simpl. rewrite Hrow. simpl.
        apply list_lookup_insert_ne. congruence.
      * by rewrite list_lookup_insert_ne.
Qed.

Lemma grid_set_out_of_range height width letters i j ch :
  has_shape height width letters → ¬ (i < height ∧ j < width) →
  grid_set letters i j ch = Raise IndexError.
Proof.
  intros [Hlen Hrows] Hout. unfold grid_set.
  destruct (letters !! i) as [row|] eqn:Hrow; [|done].
  assert (length row = width) as Hw.
  { apply Hrows. by eapply list_elem_of_lookup_2. }
  apply lookup_lt_Some in Hrow. rewrite decide_False; [done|lia].
Qed.

Lemma apply_writes_app ws1 ws2 letters :
  apply_writes (ws1 ++ ws2) letters
  = apply_writes ws1 letters ≫= apply_writes ws2.
Proof.
  revert letters. induction ws1 as [|[c ch] ws1 IH]; intros letters; [done|].
  simpl. destruct (grid_set letters c.1 c.2 ch); simpl; [apply IH|done..].
Qed.

Lemma write_word_writes variable w ks letters :
  (∀ k, k ∈ ks → k < String.length w) →
  write_word variable w ks letters
  = apply_writes (word_writes variable w ks) letters.
Proof.
  revert letters. induction ks as [|k ks IH]; intros letters Hks; [done|].
  unfold word_writes. simpl.
  destruct (string_get_lt w k) as [ch Hch]; [apply Hks; left|].
  unfold str_index. rewrite Hch. simpl.
  destruct (grid_set letters _ _ ch); simpl; [|done..].
  apply IH. intros k' ?. apply Hks. by right.
Qed.

Lemma write_words_writes a letters :
  write_words a letters = apply_writes (writes a) letters.
Proof.
  revert letters. induction a as [|[v w] a IH]; intros letters; [done|].
  unfold writes. simpl. rewrite apply_writes_app, write_word_writes.
  - destruct (apply_writes _ letters); simpl; [apply IH|done..].
  - intros k Hk%elem_of_seq. lia.
Qed.

Lemma string_get_Some_lt (w : word) k ch :
  String.get k w = Some ch → k < String.length w.
Proof.
  revert k. induction w as [|c w IH]; intros k; simpl; [discriminate|].
  destruct k as [|k]; [lia|]. intros ?%IH. lia.
Qed.

Lemma word_writes_spec v w ks c ch :
  (c, ch) ∈ word_writes v w ks
  ↔ ∃ k, k ∈ ks ∧ String.get k w = Some ch ∧ cell v k = c.
Proof.
  unfold word_writes. rewrite list_elem_of_omap. split.
  - intros (k & Hk & Hget). destruct (String.get k w) as [ch'|] eqn:Hch;
      [|discriminate]. injection Hget as <- <-. eauto.
  - intros (k & Hk & Hget & <-). exists k. split; [done|]. by rewrite Hget.
Qed.

Lemma writes_spec a i j ch :
  ((i, j), ch) ∈ writes a ↔ written a i j ch.
Proof.
  unfold writes, written. rewrite list_elem_of_In, in_flat_map. split.
  - intros ([v w] & Hin%list_elem_of_In & Hw%list_elem_of_In).
    apply word_writes_spec in Hw as (k & _ & ? & ?). by exists v, w, k.
  - intros (v & w & k & Hin & Hget & Hcell). exists (v, w).
    split; [by apply list_elem_of_In|].
    apply list_elem_of_In, word_writes_spec. exists k. split_and!; [|done..].
    apply elem_of_seq. apply string_get_Some_lt in Hget. lia.
Qed.

Lemma last_write_Some ws i j ch :
  last_write ws i j = Some ch → ((i, j), ch) ∈ ws.
Proof.
  induction ws as [|[c ch'] ws IH]; simpl; [discriminate|].
  destruct (last_write ws i j) as [ch''|].
  - intros [= ->]. right. by apply IH.
  - case_decide as Hc; [|discriminate]. intros [= ->]. subst c. left.
Qed.

Lemma last_write_None ws i j ch :
  last_write ws i j = None → ((i, j), ch) ∉ ws.
Proof.
  induction ws as [|[c ch'] ws IH]; simpl; [intros _; apply not_elem_of_nil|].
  destruct (last_write ws i j) as [ch''|]; [discriminate|].
  case_decide as Hc; [discriminate|]. intros _.
  apply not_elem_of_cons. split; [congruence|by apply IH].
Qed.

Lemma last_write_app ws1 ws2 i j :
  last_write (ws1 ++ ws2) i j
  = match last_write ws2 i j with
    | Some ch => Some ch
    | None => last_write ws1 i j
    end.
Proof.
  induction ws1 as [|[c ch] ws1 IH]; simpl; [by destruct (last_write ws2 i j)|].
  rewrite IH. by destruct (last_write ws2 i j).
Qed.

Lemma apply_writes_in_range height width ws letters :
  has_shape height width letters →
  (∀ c ch, (c, ch) ∈ ws → c.1 < height ∧ c.2 < width) →
  ∃ letters',
    apply_writes ws letters = Ok letters' ∧
    has_shape height width letters' ∧
    ∀ i j, grid_get letters' i j
           = match last_write ws i j with
             | Some ch => Some (Some ch)
             | None => grid_get letters i j
             end.
Proof.
  revert letters. induction ws as [|[c ch] ws IH]; intros letters Hshape Hin.
  - exists letters. by split_and!.
  - destruct (Hin c ch) as [Hi Hj]; [left|].
    destruct (grid_set_in_range height width letters c.1 c.2 ch)
      as (l1 & Hset & Hshape1 & Hget1); [done..|].
    destruct (IH l1 Hshape1) as (l2 & Hrun & Hshape2 & Hget2).
    { intros c' ch' ?. apply (Hin c' ch'). by right. }
    exists l2. simpl. rewrite Hset. simpl. split_and!; [done..|].
    intros i j. rewrite Hget2, Hget1. destruct (last_write ws i j); [done|].
    destruct c as [ci cj]. simpl.
    destruct (decide ((i, j) = (ci, cj))) as [[= -> ->]|Hne].
    + by rewrite decide_True.
    + rewrite decide_False; [done|congruence].
Qed.

Lemma apply_writes_out_of_range height width ws letters :
  has_shape height width letters →
  (∃ c ch, (c, ch) ∈ ws ∧ ¬ (c.1 < height ∧ c.2 < width)) →
  apply_writes ws letters = Raise IndexError.
Proof.
  revert letters. induction ws as [|[c ch] ws IH]; intros letters Hshape.
  - by intros (c & ch & ?%elem_of_nil & _).
  - intros Hout. simpl.
    destruct (decide (c.1 < height ∧ c.2 < width)) as [[Hi Hj]|Hbad].
    + destruct (grid_set_in_range height width letters c.1 c.2 ch)
        as (l1 & -> & Hshape1 & _); [done..|]. simpl. apply IH; [done|].
      destruct Hout as (c' & ch' & [[= -> ->]|Hin]%elem_of_cons & Hbad);
        [by destruct Hbad|eauto].
    + by rewrite (grid_set_out_of_range height width).
Qed.

Lemma blank_grid_shape height width :
  has_shape height width (replicate height (replicate width (@None ascii))).
Proof.
  split; [apply length_replicate|].
  intros row [-> _]%elem_of_replicate. apply length_replicate.
Qed.

Lemma blank_grid_get height width i j :
  i < height → j < width →
  grid_get (replicate height (replicate width (@None ascii))) i j = Some None.
Proof.
  intros Hi Hj. unfold grid_get.
  rewrite lookup_replicate_2 by done. simpl. by rewrite lookup_replicate_2.
Qed.

Lemma fits_grid_writes height width a :
  fits_grid height width a
  ↔ ∀ c ch, (c, ch) ∈ writes a → c.1 < height ∧ c.2 < width.
Proof.
  split.
  - intros Hfits [i j] ch (v & w & k & Hin & Hget & Hcell)%writes_spec.
    rewrite <-Hcell. apply (Hfits v w k Hin). by eapply string_get_Some_lt.
  - intros Hall v w k Hin Hk.
    destruct (string_get_lt w k Hk) as [ch Hch].
    apply (Hall (cell v k) ch). destruct (cell v k) as [i j] eqn:Hcell.
    apply writes_spec. by exists v, w, k.
Qed.

(** X17.  [letter_grid] raises an exception exactly when some letter of
    some word of the assignment falls outside the grid, and the exception
    is then an [IndexError]; otherwise it returns a grid. *)
Theorem letter_grid_raises_exactly_out_of_the_grid height width a :
  (fits_grid height width a → ∃ letters, letter_grid height width a = Ok letters)
  ∧ (¬ fits_grid height width a →
     letter_grid height width a = Raise IndexError).
Proof.
  unfold letter_grid. rewrite write_words_writes. split.
  - intros Hfits.
    destruct (apply_writes_in_range height width (writes a) _
                (blank_grid_shape height width)
                (proj1 (fits_grid_writes _ _ _) Hfits)) as (l & ? & _).
    by exists l.
  - intros Hnot. apply (apply_writes_out_of_range height width);
      [apply blank_grid_shape|].
    destruct (decide (Forall (fun w => w.1.1 < height ∧ w.1.2 < width)
                             (writes a))) as [Hall|Hex].
    + exfalso. apply Hnot, fits_grid_writes. intros c ch Hin.
      rewrite Forall_forall in Hall. apply (Hall _ Hin).
    + apply not_Forall_Exists in Hex; [|apply _].
      apply Exists_exists in Hex as ([c ch] & Hin & Hbad). eauto.
Qed.

Lemma letter_grid_run height width a letters :
  letter_grid height width a = Ok letters →
  fits_grid height width a ∧
  has_shape height width letters ∧
  ∀ i j, i < height → j < width →
         grid_get letters i j = Some (last_write (writes a) i j).
Proof.
  intros Hrun.
  assert (fits_grid height width a) as Hfits.
  { destruct (decide (Forall (fun w => w.1.1 < height ∧ w.1.2 < width)
                             (writes a))) as [Hall|Hex].
    - apply fits_grid_writes. intros c ch Hin.
      rewrite Forall_forall in Hall. apply (Hall _ Hin).
    - exfalso. apply not_Forall_Exists in Hex; [|apply _].
      apply Exists_exists in Hex as ([c ch] & Hin & Hbad).
      unfold letter_grid in Hrun. rewrite write_words_writes in Hrun.
      rewrite (apply_writes_out_of_range height width) in Hrun;
        [done|apply blank_grid_shape|eauto]. }
  split; [done|]. unfold letter_grid in Hrun.
  rewrite write_words_writes in Hrun.
  destruct (apply_writes_in_range height width (writes a) _
              (blank_grid_shape height width))
    as (l & Hl & Hshape & Hget); [by apply fits_grid_writes|].
  rewrite Hl in Hrun. injection Hrun as <-. split; [done|].
  intros i j Hi Hj. rewrite Hget, blank_grid_get by done.
  by destruct (last_write (writes a) i j).
Qed.

(** X18.  The grid that [letter_grid] returns has [height] rows of [width]
    cells; a cell that no word of the assignment covers holds [None], and
    a cell that some word covers holds a letter that one of the words
    covering it puts there. *)
Theorem letter_grid_cells height width a letters :
  letter_grid height width a = Ok letters →
  has_shape height width letters ∧
  ∀ i j, i < height → j < width →
    ∃ o, grid_get letters i j = Some o ∧
         match o with
         | Some ch => written a i j ch
         | None => ∀ ch, ¬ written a i j ch
         end.
Proof.
  intros (_ & Hshape & Hget)%letter_grid_run. split; [done|].
  intros i j Hi Hj. eexists. split; [by apply Hget|].
  destruct (last_write (writes a) i j) as [ch|] eqn:Hlast.
  - by apply writes_spec, last_write_Some.
  - intros ch Hw%writes_spec. by eapply last_write_None.
Qed.

Lemma letter_grid_cells_witness :
  has_shape 3 3 [[Some "C"; Some "A"; Some "T"]%char;
                 [None; Some "C"; None]%char;
                 [None; Some "E"; None]%char] ∧
  ∀ i j, i < 3 → j < 3 →
    ∃ o, grid_get [[Some "C"; Some "A"; Some "T"]%char;
                   [None; Some "C"; None]%char;
                   [None; Some "E"; None]%char] i j = Some o ∧
         match o with
         | Some ch =>
             written [(Examples.A, "CAT"); (Examples.B, "ACE")] i j ch
         | None =>
             ∀ ch, ¬ written [(Examples.A, "CAT"); (Examples.B, "ACE")] i j ch
         end.
Proof.
  apply (letter_grid_cells 3 3 [(Examples.A, "CAT"); (Examples.B, "ACE")]).
  vm_compute. reflexivity.
Defined.

(** X19.  When the words of the assignment never put different letters in
    one cell, the grid that [letter_grid] returns shows every word: the
    [k]-th letter of each word is in the [k]-th cell of its slot. *)
Theorem letter_grid_shows_every_word height width a letters :
  letter_grid height width a = Ok letters →
  writes_agree a →
  ∀ v w k ch, (v, w) ∈ a → String.get k w = Some ch →
    grid_get letters (cell v k).1 (cell v k).2 = Some (Some ch).
Proof.
  intros (Hfits & _ & Hget)%letter_grid_run Hagree v w k ch Hin Hch.
  destruct (Hfits v w k Hin) as [Hi Hj]; [by eapply string_get_Some_lt|].
  rewrite Hget by done. do 2 f_equal.
  assert (written a (cell v k).1 (cell v k).2 ch) as Hw.
  { exists v, w, k. split_and!; [done..|]. by destruct (cell v k). }
  destruct (last_write (writes a) _ _) as [ch'|] eqn:Hlast.
  - f_equal. apply last_write_Some, writes_spec in Hlast.
    by eapply Hagree.
  - by apply writes_spec, (last_write_None _ _ _ _ Hlast) in Hw.
Qed.

Lemma writes_agree_intro a :
  Forall (fun w1 => Forall (fun w2 => w1.1 = w2.1 → w1.2 = w2.2) (writes a))
         (writes a) →
  writes_agree a.
Proof.
  rewrite Forall_forall. intros Hall i j ch1 ch2 H1%writes_spec H2%writes_spec.
  specialize (Hall _ H1). rewrite Forall_forall in Hall.
  by apply (Hall _ H2).
Qed.

Lemma letter_grid_shows_every_word_witness :
  grid_get [[Some "C"; Some "A"; Some "T"]%char;
            [None; Some "C"; None]%char;
            [None; Some "E"; None]%char]
           (cell Examples.B 0).1 (cell Examples.B 0).2
  = Some (Some "A"%char).
Proof.
  refine (letter_grid_shows_every_word 3 3
            [(Examples.A, "CAT"); (Examples.B, "ACE")] _ _ _
            Examples.B "ACE" 0 "A"%char _ _).
  - vm_compute. reflexivity.
  - apply writes_agree_intro. apply (bool_decide_unpack _). vm_compute.
    exact I.
  - apply (bool_decide_unpack _). vm_compute. exact I.
  - vm_compute. reflexivity.
Defined.

Lemma cell_inj v k k' : cell v k = cell v k' → k = k'.
Proof.
  unfold cell. destruct (var_direction v); simpl; intros H; inversion H; lia.
Qed.

(** X20.  Entries are written in the order of the dictionary, so the last
    one wins: whatever the earlier entries put in the grid, every letter of
    the word of the last entry is in its cell. *)
Theorem letter_grid_last_entry_wins height width a v w letters :
  letter_grid height width (a ++ [(v, w)]) = Ok letters →
  ∀ k ch, String.get k w = Some ch →
    grid_get letters (cell v k).1 (cell v k).2 = Some (Some ch).
Proof.
  intros (Hfits & _ & Hget)%letter_grid_run k ch Hch.
  destruct (Hfits v w k) as [Hi Hj];
    [apply elem_of_app; right; left|by eapply string_get_Some_lt|].
  rewrite Hget by done. do 2 f_equal.
  unfold writes. rewrite flat_map_app, last_write_app. cbn [flat_map].
  rewrite app_nil_r.
  assert ((cell v k, ch) ∈ word_writes v w (seq 0 (String.length w))) as Hin.
  { apply word_writes_spec. exists k. split_and!; [|done..].
    apply elem_of_seq. apply string_get_Some_lt in Hch. lia. }
  destruct (last_write (word_writes v w _) _ _) as [ch'|] eqn:Hlast.
  - apply last_write_Some in Hlast. rewrite <-surjective_pairing in Hlast.
    apply word_writes_spec in Hlast as (k' & _ & Hch' & Hcell').
    apply cell_inj in Hcell' as ->. congruence.
  - exfalso. apply (last_write_None _ _ _ ch) in Hlast.
    by rewrite <-surjective_pairing in Hlast.
Qed.

Lemma letter_grid_last_entry_wins_witness :
  grid_get [[Some "C"; Some "D"; Some "T"]%char;
            [None; Some "O"; None]%char;
            [None; Some "G"; None]%char]
           (cell Examples.B 0).1 (cell Examples.B 0).2
  = Some (Some "D"%char).
Proof.
  apply (letter_grid_last_entry_wins 3 3 [(Examples.A, "CAT")]
           Examples.B "DOG").
  - vm_compute. reflexivity.
  - vm_compute. reflexivity.
Defined.

(** ** The search from a partial assignment *)

(** X21.  [backtrack] decides whether a partial assignment can be
    completed.  On a well-formed puzzle in which every slot has a domain,
    started from a valid assignment of words of the domains to slots, it
    raises no exception; the assignment it returns satisfies the
    constraints over the domains and begins with the entries it was given;
    and it returns [None] only when no satisfying assignment contains those
    entries. *)
Theorem backtrack_decides_completion random self a rng :
  well_formed (crossword self) = true →
  domains_cover self →
  (∀ p, p ∈ a → p.1 ∈ variables (crossword self)) →
  from_domains self a = true →
  valid (crossword self) a →
  ∃ res a' rng',
    backtrack random self a rng = Ok (res, a', rng') ∧
    match res with
    | Some r => satisfying self r ∧ ∃ new, r = a ++ new
    | None => ∀ s, satisfying self s → ¬ part_of self s a
    end.
Proof.
  intros Hwf Hcover Hkeys Hfrom Hvalid. unfold backtrack.
  destruct (backtrack_fuel_total random self
              (S (length (unassigned self a))) a rng)
    as (res & a' & rng' & Hrun); [done..|lia|].
  exists res, a', rng'. split; [done|]. destruct res as [r|].
  - pose proof (backtrack_fuel_Some _ _ _ _ _ _ _ _ Hrun)
      as (_ & Hcomplete & Hvalid' & Hdom).
    apply backtrack_fuel_extends in Hrun as (new & -> & _). split; [|by eauto].
    split_and!; [done|by apply Hvalid'|].
    intros v w Hin. destruct (Hdom _ Hin) as [Hold|?]; [|done].
    unfold from_domains in Hfrom. rewrite forallb_forall in Hfrom.
    apply list_elem_of_In, Hfrom in Hold. simpl in Hold.
    destruct (domains self !! v) as [d|]; [|discriminate].
    apply bool_decide_eq_true in Hold. eauto.
  - intros s Hsat Hpart.
    destruct (backtrack_fuel_complete random self s
                (S (length (unassigned self a))) a rng)
      as (r & a1 & rng1 & Hsome); [done..|lia|congruence].
Qed.

Lemma domains_cover_check self :
  forallb (fun v => bool_decide (is_Some (domains self !! v)))
          (variables (crossword self)) = true →
  domains_cover self.
Proof.
  rewrite forallb_forall. intros H v Hv%list_elem_of_In%H.
  by apply bool_decide_eq_true in Hv.
Qed.

Lemma backtrack_decides_completion_witness :
  ∃ res a' rng',
    backtrack Examples.first_draw
      (Examples.with_domains Examples.cat_ace_dog ["CAT"; "ACE"]
         Examples.B ["DOG"; "CAT"])
      [(Examples.A, "ACE")] 0 = Ok (res, a', rng') ∧
    match res with
    | Some r =>
        satisfying (Examples.with_domains Examples.cat_ace_dog ["CAT"; "ACE"]
                      Examples.B ["DOG"; "CAT"]) r ∧
        ∃ new, r = [(Examples.A, "ACE")] ++ new
    | None =>
        ∀ s, satisfying (Examples.with_domains Examples.cat_ace_dog
                           ["CAT"; "ACE"] Examples.B ["DOG"; "CAT"]) s →
             ¬ part_of (Examples.with_domains Examples.cat_ace_dog
                          ["CAT"; "ACE"] Examples.B ["DOG"; "CAT"])
                       s [(Examples.A, "ACE")]
    end.
Proof.
  apply (backtrack_decides_completion Examples.first_draw
           (Examples.with_domains Examples.cat_ace_dog ["CAT"; "ACE"]
              Examples.B ["DOG"; "CAT"])
           [(Examples.A, "ACE")] 0).
  - vm_compute. reflexivity.
  - apply domains_cover_check. vm_compute. reflexivity.
  - apply Forall_forall. repeat constructor.
  - vm_compute. reflexivity.
  - apply consistent_true. vm_compute. reflexivity.
Defined.

(** ** Revising a slot against itself *)

(** X22.  The overlap table of a well-formed puzzle has no entry for a
    slot paired with itself, so [revise(x, x)] raises [KeyError] as soon as
    the domain of [x] holds a word; on an empty domain it returns [False]
    and changes nothing. *)
Theorem revise_against_the_same_slot self x dx :
  well_formed (crossword self) = true →
  domains self !! x = Some dx →
  revise self x x = if decide (dx = []) then Ok (false, self)
                    else Raise KeyError.
Proof.
  intros Hwf Hdx. unfold revise. rewrite Hdx.
  destruct dx as [|w dx]; simpl.
  - by destruct self.
  - rewrite Hdx. simpl.
    destruct (overlaps (crossword self) !! (x, x)) as [ov|] eqn:Hov; [|done].
    by destruct (well_formed_entry _ _ _ _ Hwf Hov) as (_ & _ & ? & _).
Qed.

Lemma revise_against_the_same_slot_witness :
  revise (init Examples.cat_ace) Examples.A Examples.A
  = if decide (["CAT"; "ACE"] = []) then Ok (false, init Examples.cat_ace)
    else Raise KeyError.
Proof.
  apply (revise_against_the_same_slot (init Examples.cat_ace) Examples.A
           ["CAT"; "ACE"]).
  - vm_compute. reflexivity.
  - vm_compute. reflexivity.
Defined.
